(** * QubitDevice: statistics post-processing of qubit devices

    A shallow embedding of [pennylane/_qubit_device.py] (class [QubitDevice])
    and the properties of its utility methods.

    Conventions of the embedding:
    - floating point numbers are idealised as exact rationals ([Q]), compared
      with [==]; complex numbers are pairs of rationals;
    - integer arrays hold 64-bit signed integers, written as [Z] with the
      wrap-around of the shift written out;
    - wires are device indices ([nat]); an ndarray is a shape with its data in
      row-major (C) order;
    - a Python exception is a value of [exn]; a computation that may raise
      returns a [result]. *)

From Stdlib Require Import String.
From Stdlib Require Import Arith ZArith QArith List Bool Lia Lqa Permutation.
From Stdlib Require Import Sorting.Sorted.
Import ListNotations.

Open Scope Z_scope.

(** ** Exceptions and results *)

Inductive exn : Type :=
| QuantumFunctionError (msg : string)
| NotImplementedError
| ValueError
| IndexError
| TypeError.

Inductive result (A : Type) : Type :=
| Ok (a : A)
| Raise (e : exn).

Arguments Ok {A} a.
Arguments Raise {A} e.

Definition bind {A B : Type} (m : result A) (k : A -> result B) : result B :=
  match m with
  | Ok a => k a
  | Raise e => Raise e
  end.

Notation "x <- m ;; k" := (bind m (fun x => k))
  (at level 61, m at next level, right associativity).

Fixpoint mapM {A B : Type} (f : A -> result B) (l : list A) : result (list B) :=
  match l with
  | [] => Ok []
  | a :: l' => b <- f a ;; bs <- mapM f l' ;; Ok (b :: bs)
  end.

(** ** Integer arrays *)

Definition INT64_MAX : Z := 2 ^ 63 - 1.

Definition wrap64 (z : Z) : Z := (z + 2 ^ 63) mod 2 ^ 64 - 2 ^ 63.

(** [a << b] on 64-bit integers: the product wraps around, and a shift by the
    width or more gives [0]. *)
Definition left_shift (a b : Z) : Z :=
  if b <? 64 then wrap64 (Z.shiftl a b) else 0.

(** [np.arange(n)] *)
Definition arange (n : nat) : list Z := map Z.of_nat (seq 0 n).

(** [np.ravel_multi_index(multi_index, dims)] for one multi-index: the
    row-major flat index, [ValueError] when a coordinate is out of bounds or
    the ranks differ. *)
Fixpoint ravel_from (acc : Z) (multi_index dims : list Z) : result Z :=
  match multi_index, dims with
  | [], [] => Ok acc
  | i :: mi, d :: ds =>
      if (0 <=? i) && (i <? d) then ravel_from (acc * d + i) mi ds
      else Raise ValueError
  | _, _ => Raise ValueError
  end.

Definition ravel_multi_index (multi_index dims : list Z) : result Z :=
  ravel_from 0 multi_index dims.

(** ** [QubitDevice.states_to_binary] *)

Definition powers_of_two (num_wires : nat) : list Z :=
  map (left_shift 1) (arange num_wires).

(** One row of [(samples[:, None] & powers_of_two > 0).astype(int)[:, ::-1]]. *)
Definition binary_row (num_wires : nat) (s : Z) : list Z :=
  rev (map (fun pw => if Z.land s pw >? 0 then 1 else 0) (powers_of_two num_wires)).

Definition states_to_binary (samples : list Z) (num_wires : nat) : list (list Z) :=
  map (binary_row num_wires) samples.

(** ** Real and complex numbers *)

Record complex : Type := mkC { re : Q; im : Q }.

Definition of_Q (x : Q) : complex := mkC x 0%Q.
Definition of_Z (z : Z) : complex := of_Q (inject_Z z).

Definition Cadd (a b : complex) : complex :=
  mkC (re a + re b)%Q (im a + im b)%Q.
Definition Csub (a b : complex) : complex :=
  mkC (re a - re b)%Q (im a - im b)%Q.
Definition Cmul (a b : complex) : complex :=
  mkC (re a * re b - im a * im b)%Q (re a * im b + im a * re b)%Q.

(** Equality of complex numbers up to the representation of the fractions. *)
Definition Ceq (a b : complex) : Prop := (re a == re b)%Q /\ (im a == im b)%Q.

(** The attribute [.real] *)
Definition real (a : complex) : complex := of_Q (re a).

(** [x ** 2], element by element on an array *)
Definition square (a : complex) : complex := Cmul a a.

(** [eigvals @ prob] for two one-dimensional arrays: [ValueError] when the
    lengths differ. *)
Fixpoint matmul (e : list complex) (p : list Q) : result complex :=
  match e, p with
  | [], [] => Ok (of_Q 0%Q)
  | x :: e', y :: p' => s <- matmul e' p' ;; Ok (Cadd (Cmul x (of_Q y)) s)
  | _, _ => Raise ValueError
  end.

Definition sumQ (l : list Q) : Q := fold_right Qplus 0%Q l.

(** ** Arrays *)

(** [np.hstack(wires)] on a sequence of wire indices: the one-dimensional
    array of them, [ValueError] on an empty sequence. *)
Definition hstack (wires : list nat) : result (list nat) :=
  match wires with
  | [] => Raise ValueError
  | _ => Ok wires
  end.

(** A two-dimensional integer array, row by row. *)
Record matrix : Type := mkMatrix { n_cols : nat; rows : list (list Z) }.

(** [m[:, wires]]: the columns [wires] of every row, [IndexError] for a column
    that the array does not have. *)
Definition take_columns (m : matrix) (wires : list nat) : result matrix :=
  if forallb (fun w => Nat.ltb w (n_cols m)) wires
  then Ok (mkMatrix (List.length wires)
                    (map (fun r => map (fun w => nth w r 0) wires) (rows m)))
  else Raise IndexError.

(** [m[:, w]] for a single column. *)
Definition take_column (m : matrix) (w : nat) : result (list Z) :=
  if Nat.ltb w (n_cols m) then Ok (map (fun r => nth w r 0) (rows m))
  else Raise IndexError.

(** [np.ravel_multi_index(samples.T, dims)]: one flat index per row. *)
Definition ravel_rows (m : matrix) (dims : list Z) : result (list Z) :=
  mapM (fun r => ravel_multi_index r dims) (rows m).

(** [a[indices]] with an integer array of non-negative indices. *)
Definition getitems {A : Type} (a : list A) (indices : list Z) : result (list A) :=
  mapM (fun i => match nth_error a (Z.to_nat i) with
                 | Some x => Ok x
                 | None => Raise IndexError
                 end) indices.

(** [a[i] = v] *)
Fixpoint setitem {A : Type} (a : list A) (i : nat) (v : A) : result (list A) :=
  match a, i with
  | [], _ => Raise IndexError
  | _ :: a', O => Ok (v :: a')
  | x :: a', S i' => r <- setitem a' i' v ;; Ok (x :: r)
  end.

(** [a[indices] = values], written one index after the other. *)
Fixpoint setitems {A : Type} (a : list A) (indices : list Z) (values : list A)
  : result (list A) :=
  match indices, values with
  | [], [] => Ok a
  | i :: indices', v :: values' =>
      a' <- setitem a (Z.to_nat i) v ;; setitems a' indices' values'
  | _, _ => Raise ValueError
  end.

(** Sorting, as [np.unique] and [np.argsort] do it. *)
Fixpoint insert (x : Z) (l : list Z) : list Z :=
  match l with
  | [] => [x]
  | y :: l' => if x <=? y then x :: l else y :: insert x l'
  end.

Definition sort (l : list Z) : list Z := fold_right insert [] l.

(** The runs of equal neighbours of a list, each with its length. *)
Fixpoint run_lengths (l : list Z) : list (Z * nat) :=
  match l with
  | [] => []
  | x :: l' =>
      match run_lengths l' with
      | (y, c) :: r => if x =? y then (x, S c) :: r else (x, 1%nat) :: (y, c) :: r
      | [] => [(x, 1%nat)]
      end
  end.

(** [np.unique(a, return_counts=True)]: the sorted distinct values and how
    often each occurs. *)
Definition unique_counts (a : list Z) : list Z * list nat :=
  let runs := run_lengths (sort a) in (map fst runs, map snd runs).

(** Insertion of an index into a list of indices ordered by their keys; equal
    keys keep their order. *)
Fixpoint insert_by (key : nat -> nat) (i : nat) (l : list nat) : list nat :=
  match l with
  | [] => [i]
  | j :: l' => if Nat.leb (key i) (key j) then i :: l else j :: insert_by key i l'
  end.

(** [np.argsort(a)]: the indices of [a] in the order of their entries. *)
Definition argsort (a : list nat) : list nat :=
  fold_right (insert_by (fun i => nth i a 0%nat)) [] (seq 0 (List.length a)).

(** [itertools.product([0, 1], repeat=k)] *)
Fixpoint product01 (k : nat) : list (list Z) :=
  match k with
  | O => [[]]
  | S k' => map (cons 0) (product01 k') ++ map (cons 1) (product01 k')
  end.

(** An n-dimensional array of reals: its shape and its entries in row-major
    order. *)
Record ndarray : Type := mkArray { shape : list nat; data : list Q }.

Definition size_of (shp : list nat) : nat := fold_right Nat.mul 1%nat shp.

(** [a.reshape(shp)] of a flat array *)
Definition reshape (a : list Q) (shp : list nat) : result ndarray :=
  if Nat.eqb (List.length a) (size_of shp) then Ok (mkArray shp a)
  else Raise ValueError.

(** [np.sum(a, axis, keepdims=True)]: the entry at offset [o] before the axis
    and [i] after it is the sum along the axis. *)
Definition sum_axis (a : ndarray) (axis : nat) : ndarray :=
  let outer := size_of (firstn axis (shape a)) in
  let d := nth axis (shape a) 1%nat in
  let inner := size_of (skipn (S axis) (shape a)) in
  mkArray (firstn axis (shape a) ++ 1%nat :: skipn (S axis) (shape a))
          (flat_map (fun o =>
             map (fun i =>
               sumQ (map (fun t => nth ((o * d + t) * inner + i) (data a) 0%Q)
                         (seq 0 d)))
               (seq 0 inner))
             (seq 0 outer)).

(** [np.apply_over_axes(np.sum, a, axes)]: the sum over each of the axes in
    turn, every summed axis kept with length one. *)
Definition apply_over_axes_sum (a : ndarray) (axes : list nat) : ndarray :=
  fold_left sum_axis axes a.

Definition flatten (a : ndarray) : list Q := data a.

(** ** Observables, operations and circuits *)

(** The value of [Observable.return_type]: one of the four members of
    [ObservableReturnTypes], [None], or any other object. *)
Inductive return_type_tag : Type :=
| Expectation
| Variance
| Sample
| Probability
| NoReturnType
| OtherReturnType (tag : string).

(** The name of an observable: a string, or the list of names of a tensor
    observable. *)
Inductive obs_name : Type :=
| Name (s : string)
| Names (l : list string).

Record Observable : Type := mkObservable {
  name : obs_name;
  wires : list nat;
  return_type : return_type_tag;
  eigvals : list complex
}.

Record Operation : Type := mkOperation {
  op_name : string;
  op_wires : list nat;
  parameters : list Q;
  inverse : bool
}.

Record CircuitGraph : Type := mkCircuit {
  operations : list Operation;
  observables : list Observable;
  diagonalizing_gates : list Operation;
  hash : Z;
  is_sampled : bool
}.

(** [str.format] of a name *)
Definition format_name (n : obs_name) : string :=
  match n with
  | Name s => s
  | Names l =>
      ("[" ++ String.concat ", " (map (fun s => "'" ++ s ++ "'") l) ++ "]")%string
  end.

Definition is_tag (t u : return_type_tag) : bool :=
  match t, u with
  | Expectation, Expectation | Variance, Variance
  | Sample, Sample | Probability, Probability
  | NoReturnType, NoReturnType => true
  | _, _ => false
  end.

(** [isinstance(name, str) and name in {"PauliX", "PauliY", "PauliZ", "Hadamard"}] *)
Definition is_pauli_name (n : obs_name) : bool :=
  match n with
  | Name s =>
      (String.eqb s "PauliX" || String.eqb s "PauliY"
       || String.eqb s "PauliZ" || String.eqb s "Hadamard")%bool
  | Names _ => false
  end.

(** ** The device *)

(** One statistic of [statistics]: a number or a one-dimensional array. *)
Inductive value : Type :=
| Scalar (x : complex)
| Vector (xs : list complex).

Definition value_shape (v : value) : list nat :=
  match v with
  | Scalar _ => []
  | Vector xs => [List.length xs]
  end.

Inductive dtype : Type := Object.

(** The state of a device: the attributes of [QubitDevice] and the state [B]
    that the subclass keeps. *)
Record QubitDevice (B : Type) : Type := mkDevice {
  num_wires : nat;
  shots : positive;
  analytic : bool;
  _samples : option matrix;
  _circuit_hash : option Z;
  backend : B
}.

Arguments mkDevice {B}.
Arguments num_wires {B}.
Arguments shots {B}.
Arguments analytic {B}.
Arguments _samples {B}.
Arguments _circuit_hash {B}.
Arguments backend {B}.

(** What the class takes from its base class, its subclass and the numeric
    library: the abstract methods [apply] and [analytic_probability],
    [check_validity] and [translate] of [Device], and [np.random.choice],
    [np.mean], [np.var] and [np.asarray], whose results are arrays of a type
    [T] of their own. *)
Class Collaborators (B T : Type) : Type := {
  check_validity : QubitDevice B -> list Operation -> list Observable -> result unit;
  apply : list Operation -> list Operation -> list (string * Z) ->
          QubitDevice B -> result unit * QubitDevice B;
  analytic_probability : QubitDevice B -> option (list nat) -> result (list Q);
  translate : QubitDevice B -> list nat -> list nat;
  np_random_choice : list Z -> positive -> list Q -> result (list Z);
  np_mean : list complex -> complex;
  np_var : list complex -> complex;
  _asarray : list value -> option dtype -> T
}.

Section Device.

Context {B T : Type} `{Collaborators B T}.

Definition reset (d : QubitDevice B) : QubitDevice B :=
  mkDevice (num_wires d) (shots d) (analytic d) None None (backend d).

(** [active_wires]: the wires acted on by a list of operators, as a list
    without repetition. *)
Definition active_wires (operators : list Operation) : list nat :=
  nodup Nat.eq_dec (flat_map op_wires operators).

Definition circuit_hash (d : QubitDevice B) : option Z := _circuit_hash d.

(** The property [state] of the base class. *)
Definition state (d : QubitDevice B) : result (list complex) :=
  Raise NotImplementedError.

Definition sample_basis_states (d : QubitDevice B) (number_of_states : nat)
    (state_probability : list Q) : result (list Z) :=
  let basis_states := arange number_of_states in
  np_random_choice basis_states (shots d) state_probability.

Definition generate_samples (d : QubitDevice B) : result matrix :=
  let number_of_states := (2 ^ num_wires d)%nat in
  rotated_prob <- analytic_probability d None ;;
  samples <- sample_basis_states d number_of_states rotated_prob ;;
  Ok (mkMatrix (num_wires d) (states_to_binary samples (num_wires d))).

(** [estimate_probability], called with a sequence of wires as [probability]
    does. *)
Definition estimate_probability (d : QubitDevice B) (wires : list nat)
  : result (list Q) :=
  wires <- hstack wires ;;
  samples <- match _samples d with
             | None => Raise TypeError
             | Some m => take_columns m wires
             end ;;
  let unraveled_indices := repeat 2 (List.length wires) in
  indices <- ravel_rows samples unraveled_indices ;;
  let (basis_states, counts) := unique_counts indices in
  let prob := repeat 0%Q (2 ^ List.length wires) in
  setitems prob basis_states
    (map (fun c => (inject_Z (Z.of_nat c) / inject_Z (Z.pos (shots d)))%Q) counts).

(** [wires or range(self.num_wires)]: [None] and the empty sequence are
    both false. *)
Definition wires_or_range (d : QubitDevice B) (wires : option (list nat)) : list nat :=
  match wires with
  | None | Some [] => seq 0 (num_wires d)
  | Some w => w
  end.

(** [probability]; the attribute [analytic] is set by the constructor, so
    [hasattr(self, "analytic")] holds. *)
Definition probability (d : QubitDevice B) (wires : option (list nat))
  : result (list Q) :=
  let wires := wires_or_range d wires in
  if analytic d then analytic_probability d (Some wires)
  else estimate_probability d wires.

Definition marginal_prob (d : QubitDevice B) (prob : list Q)
    (wires : option (list nat)) : result (list Q) :=
  match wires with
  | None => Ok prob
  | Some wires =>
      wires <- hstack wires ;;
      let inactive_wires :=
        filter (fun a => negb (existsb (Nat.eqb a) wires)) (seq 0 (num_wires d)) in
      prob <- reshape prob (repeat 2%nat (num_wires d)) ;;
      let prob := flatten (apply_over_axes_sum prob inactive_wires) in
      let basis_states := product01 (List.length wires) in
      let order := argsort (argsort wires) in
      perm <- mapM (fun r =>
                      ravel_multi_index (map (fun c => nth c r 0) order)
                                        (repeat 2 (List.length wires)))
                   basis_states ;;
      getitems prob perm
  end.

Definition sample (d : QubitDevice B) (observable : Observable)
  : result (list complex) :=
  let wires := translate d (wires observable) in
  if is_pauli_name (name observable) then
    match wires with
    | [] => Raise IndexError
    | w0 :: _ =>
        column <- match _samples d with
                  | None => Raise TypeError
                  | Some m => take_column m w0
                  end ;;
        Ok (map (fun b => of_Z (1 - 2 * b)) column)
    end
  else
    wires <- hstack wires ;;
    samples <- match _samples d with
               | None => Raise TypeError
               | Some m => take_columns m wires
               end ;;
    let unraveled_indices := repeat 2 (List.length wires) in
    indices <- ravel_rows samples unraveled_indices ;;
    getitems (eigvals observable) indices.

Definition expval (d : QubitDevice B) (observable : Observable) : result complex :=
  let wires := translate d (wires observable) in
  if analytic d then
    prob <- probability d (Some wires) ;;
    s <- matmul (eigvals observable) prob ;;
    Ok (real s)
  else
    smp <- sample d observable ;; Ok (np_mean smp).

Definition var (d : QubitDevice B) (observable : Observable) : result complex :=
  let wires := translate d (wires observable) in
  if analytic d then
    prob <- probability d (Some wires) ;;
    s2 <- matmul (map square (eigvals observable)) prob ;;
    s <- matmul (eigvals observable) prob ;;
    Ok (Csub s2 (square (real s)))
  else
    smp <- sample d observable ;; Ok (np_var smp).

(** The loop of [statistics], with the list of results so far. *)
Fixpoint statistics_loop (d : QubitDevice B) (observables : list Observable)
    (results : list value) : result (list value) :=
  match observables with
  | [] => Ok results
  | obs :: rest =>
      match return_type obs with
      | Expectation =>
          v <- expval d obs ;; statistics_loop d rest (results ++ [Scalar v])
      | Variance =>
          v <- var d obs ;; statistics_loop d rest (results ++ [Scalar v])
      | Sample =>
          v <- sample d obs ;; statistics_loop d rest (results ++ [Vector v])
      | Probability =>
          v <- probability d (Some (translate d (wires obs))) ;;
          statistics_loop d rest (results ++ [Vector (map of_Q v)])
      | NoReturnType => statistics_loop d rest results
      | OtherReturnType _ =>
          Raise (QuantumFunctionError
                   ("Unsupported return type specified for observable "
                    ++ format_name (name obs))%string)
      end
  end.

Definition statistics (d : QubitDevice B) (observables : list Observable)
  : result (list value) :=
  statistics_loop d observables [].

Definition set_circuit_hash (d : QubitDevice B) (h : option Z) : QubitDevice B :=
  mkDevice (num_wires d) (shots d) (analytic d) (_samples d) h (backend d).

Definition set_samples (d : QubitDevice B) (s : option matrix) : QubitDevice B :=
  mkDevice (num_wires d) (shots d) (analytic d) s (_circuit_hash d) (backend d).

(** [execute]: the result or the exception, and the device afterwards. *)
Definition execute (d : QubitDevice B) (circuit : CircuitGraph)
    (kwargs : list (string * Z)) : result T * QubitDevice B :=
  match check_validity d (operations circuit) (observables circuit) with
  | Raise e => (Raise e, d)
  | Ok _ =>
      let d := set_circuit_hash d (Some (hash circuit)) in
      match apply (operations circuit) (diagonalizing_gates circuit) kwargs d with
      | (Raise e, d) => (Raise e, d)
      | (Ok _, d) =>
          let sampled :=
            if (negb (analytic d) || is_sampled circuit)%bool
            then s <- generate_samples d ;; Ok (set_samples d (Some s))
            else Ok d in
          match sampled with
          | Raise e => (Raise e, d)
          | Ok d =>
              match statistics d (observables circuit) with
              | Raise e => (Raise e, d)
              | Ok results =>
                  let all_sampled :=
                    forallb (fun obs => is_tag (return_type obs) Sample)
                            (observables circuit) in
                  if (is_sampled circuit && negb all_sampled)%bool
                  then (Ok (_asarray results (Some Object)), d)
                  else (Ok (_asarray results None), d)
              end
          end
      end
  end.

End Device.

(** ** A simulator

    A subclass for analytic simulation: it keeps the distribution over all
    basis states, answers [analytic_probability] with [marginal_prob], as the
    class documentation suggests, and accepts every circuit.  The outcome
    [draw] of the random choice is fixed beforehand. *)

Definition mean (l : list complex) : complex :=
  let n := inject_Z (Z.of_nat (List.length l)) in
  let s := fold_right Cadd (of_Q 0%Q) l in
  mkC (re s / n)%Q (im s / n)%Q.

Definition variance (l : list complex) : complex :=
  let m := mean l in
  mean (map (fun x => of_Q (re (Csub x m) * re (Csub x m)
                            + im (Csub x m) * im (Csub x m))%Q) l).

Definition simulator (draw : list Z)
  : Collaborators (list Q) (list value * option dtype) :=
  {| check_validity := fun _ _ _ => Ok tt;
     apply := fun _ _ _ d => (Ok tt, d);
     analytic_probability := fun d w => marginal_prob d (backend d) w;
     translate := fun _ w => w;
     np_random_choice := fun _ _ _ => Ok draw;
     np_mean := mean;
     np_var := variance;
     _asarray := fun results dt => (results, dt) |}.

Definition simulator_device (n : nat) (s : positive) (p : list Q)
  : QubitDevice (list Q) :=
  mkDevice n s true None None p.

(** ** Reference notions *)

(** The inner product [e . p] of an eigenvalue vector with a probability
    vector, entry by entry. *)
Definition inner_product (e : list complex) (p : list Q) : complex :=
  fold_right Cadd (of_Q 0%Q)
    (map (fun i => Cmul (nth i e (of_Q 0%Q)) (of_Q (nth i p 0%Q)))
         (seq 0 (List.length e))).

(** The [n]-bit binary expansion of a basis-state index, most significant bit
    (the first wire) first. *)
Definition big_endian_bits (n : nat) (s : Z) : list Z :=
  map (fun k => Z.b2z (Z.testbit s (Z.of_nat (n - 1 - k)))) (seq 0 n).

Definition is_sample (o : Observable) : bool := is_tag (return_type o) Sample.

(** ** Example devices and circuits *)

Definition pauli_z (rt : return_type_tag) : Observable :=
  mkObservable (Name "PauliZ") [0%nat] rt [of_Z 1; of_Z (-1)].

(** One wire, two shots, the uniform distribution. *)
Definition one_qubit : QubitDevice (list Q) :=
  simulator_device 1 2 [1 # 2; 1 # 2]%Q.

Definition circuit_of (obs : list Observable) (sampled : bool) : CircuitGraph :=
  mkCircuit [] obs [] 7 sampled.

(** Two wires, the distribution of the state whose first wire is uniform and
    whose second wire is [0]. *)
Definition two_qubits : QubitDevice (list Q) :=
  simulator_device 2 1 [1 # 2; 0; 1 # 2; 0]%Q.

(** How often [v] occurs in [l]. *)
Definition occurrences (v : Z) (l : list Z) : nat :=
  List.length (filter (Z.eqb v) l).

(** The columns [W] of a sample row, read as a big-endian number in base 2. *)
Definition columns_index (W : list nat) (r : list Z) : Z :=
  fold_left (fun acc w => 2 * acc + nth w r 0) W 0.

(** The number of sample rows whose columns [W] read as [j]. *)
Definition count_rows (m : matrix) (W : list nat) (j : Z) : nat :=
  List.length (filter (fun r => Z.eqb j (columns_index W r)) (rows m)).

(** The bit at position [a], counted from the most significant one, of the
    [n]-bit number [s]: the value of wire [a] in the basis state [s] of [n]
    wires. *)
Definition bit_of (n s a : nat) : nat := ((s / 2 ^ (n - 1 - a)) mod 2)%nat.

(** The basis state [s] of [n] wires has, on each wire [W_i], bit [i] of the
    [|W|]-bit index [j]. *)
Definition consistent (n : nat) (W : list nat) (j s : nat) : bool :=
  forallb (fun i => Nat.eqb (bit_of n s (nth i W 0%nat)) (bit_of (List.length W) j i))
          (seq 0 (List.length W)).

(** The marginal over the wires [W] in the order they are given: the sum of
    [p] over the basis states consistent with the bits of [j]. *)
Definition marginal_sum (n : nat) (p : list Q) (W : list nat) (j : nat) : Q :=
  sumQ (map (fun s => if consistent n W j s then nth s p 0%Q else 0%Q)
            (seq 0 (2 ^ n))).

(** Three wires, all the mass on the basis state [001]. *)
Definition state_001 : list Q := [0; 1; 0; 0; 0; 0; 0; 0]%Q.

Definition three_qubits : QubitDevice (list Q) := simulator_device 3 1 state_001.

(** ** Indices of n-dimensional arrays *)

(** The row-major offset of a multi-index in an array of a given shape. *)
Fixpoint flat_from (acc : nat) (shp idx : list nat) : nat :=
  match shp, idx with
  | d :: shp', i :: idx' => flat_from (acc * d + i) shp' idx'
  | _, _ => acc
  end.

Definition flat (shp idx : list nat) : nat := flat_from 0 shp idx.

(** A multi-index within the bounds of a shape. *)
Definition valid (shp idx : list nat) : Prop := Forall2 (fun d i => (i < d)%nat) shp idx.

(** The entry of an array at a multi-index. *)
Definition entry (a : ndarray) (idx : list nat) : Q :=
  nth (flat (shape a) idx) (data a) 0%Q.

(** A list with position [a] replaced. *)
Definition upd (l : list nat) (a x : nat) : list nat :=
  firstn a l ++ x :: skipn (S a) l.

Definition mem (a : nat) (l : list nat) : bool := existsb (Nat.eqb a) l.

(** The basis state [s] of [n] wires agrees with the multi-index [idx] on
    every axis that is not in [L]. *)
Definition agree (n : nat) (L idx : list nat) (s : nat) : bool :=
  forallb (fun a => mem a L || Nat.eqb (bit_of n s a) (nth a idx 0%nat)) (seq 0 n).

(** The sum of [p] over the basis states that satisfy [c]. *)
Definition sum_where (n : nat) (p : list Q) (c : nat -> bool) : Q :=
  sumQ (map (fun s => if c s then nth s p 0%Q else 0%Q) (seq 0 (2 ^ n))).

(** What the array [t] holds once the axes [L] of the distribution [p] over
    [n] wires are summed over: axes of length one in [L] and two elsewhere,
    and at each multi-index the sum over the basis states that agree with
    it. *)
Definition summed (n : nat) (p : list Q) (L : list nat) (t : ndarray) : Prop :=
  List.length (shape t) = n
  /\ (forall a, (a < n)%nat -> nth a (shape t) 0%nat = if mem a L then 1%nat else 2%nat)
  /\ List.length (data t) = size_of (shape t)
  /\ forall idx, valid (shape t) idx ->
       (entry t idx == sum_where n p (agree n L idx))%Q.

(** The number of wires of [W] below [a]: the place of wire [a] among the
    wires of [W] in increasing order. *)
Definition rank (W : list nat) (a : nat) : nat :=
  List.length (filter (fun b => mem b W) (seq 0 a)).

(** The multi-index over the [n] axes that gives each wire of [W] the bit of
    [bits] at its rank, and [0] to the other axes. *)
Definition spread (n : nat) (W bits : list nat) : list nat :=
  map (fun a => if mem a W then nth (rank W a) bits 0%nat else 0%nat) (seq 0 n).

(** The basis state [s] of [n] wires has, on each wire [W_i], the bit of the
    [|W|]-bit index [j] that [marginal_prob] reads for it: the one at
    [argsort(argsort(W))[r]], with [r] the rank of the wire. *)
Definition read_consistent (n : nat) (W : list nat) (j s : nat) : bool :=
  forallb (fun i =>
             Nat.eqb (bit_of n s (nth i W 0%nat))
                     (bit_of (List.length W) j
                        (nth (rank W (nth i W 0%nat)) (argsort (argsort W)) 0%nat)))
          (seq 0 (List.length W)).

(** ** Capabilities *)

(** The values of the capabilities dictionary. *)
Inductive cap_value : Type :=
| CapStr (s : string)
| CapBool (b : bool).

(** A dictionary with string keys, in the order of insertion. *)
Definition dict : Type := list (string * cap_value).

Fixpoint dict_get (k : string) (d : dict) : option cap_value :=
  match d with
  | [] => None
  | (k', v) :: d' => if String.eqb k k' then Some v else dict_get k d'
  end.

(** [d[k] = v]: the value of an existing key is replaced, a new key is added
    at the end. *)
Fixpoint dict_set (k : string) (v : cap_value) (d : dict) : dict :=
  match d with
  | [] => [(k, v)]
  | (k', v') :: d' =>
      if String.eqb k k' then (k, v) :: d' else (k', v') :: dict_set k v d'
  end.

(** [capabilities], on the dictionary [cls._capabilities] of the class: the
    dictionary it returns and the one the class holds afterwards, which are
    one object. *)
Definition capabilities (_capabilities : dict) : dict * dict :=
  let capabilities :=
    dict_set "tensor_observables" (CapBool true)
             (dict_set "model" (CapStr "qubit") _capabilities) in
  (capabilities, capabilities).

(** A statistic of the kind its observable asks for: a number for an
    expectation value or a variance, an array for samples or probabilities. *)
Definition statistic_kind (o : Observable) (v : value) : Prop :=
  match return_type o, v with
  | Expectation, Scalar _ | Variance, Scalar _
  | Sample, Vector _ | Probability, Vector _ => True
  | _, _ => False
  end.

Definition has_return_type (o : Observable) : bool :=
  negb (is_tag (return_type o) NoReturnType).

(** A device that overrides neither [generate_samples] nor
    [analytic_probability]: the latter raises, as in the base class. *)
Definition bare_device : Collaborators unit (list value * option dtype) :=
  {| check_validity := fun _ _ _ => Ok tt;
     apply := fun _ _ _ d => (Ok tt, d);
     analytic_probability := fun _ _ => Raise NotImplementedError;
     translate := fun _ w => w;
     np_random_choice := fun _ _ _ => Ok [];
     np_mean := mean;
     np_var := variance;
     _asarray := fun results dt => (results, dt) |}.

(** * Properties *)

(** ** Binary expansion *)

Lemma left_shift_one_small (k : Z) : 0 <= k < 63 -> left_shift 1 k = 2 ^ k.
Proof.
  intros Hk. unfold left_shift.
  destruct (Z.ltb_spec k 64); [|lia].
  rewrite Z.shiftl_1_l. unfold wrap64.
  assert (Hp : 0 < 2 ^ k <= 2 ^ 62).
  { split; [apply Z.pow_pos_nonneg; lia|apply Z.pow_le_mono_r; lia]. }
  assert (H62 : 2 ^ 62 < 2 ^ 63) by (apply Z.pow_lt_mono_r; lia).
  assert (H64 : 2 ^ 64 = 2 * 2 ^ 63) by reflexivity.
  rewrite Z.mod_small; lia.
Qed.

Lemma left_shift_one_63 : left_shift 1 63 = - 2 ^ 63.
Proof. reflexivity. Qed.

Lemma left_shift_one_large (k : Z) : 64 <= k -> left_shift 1 k = 0.
Proof.
  intros Hk. unfold left_shift. destruct (Z.ltb_spec k 64); [lia|reflexivity].
Qed.

Lemma testbit_high (s k : Z) : 0 <= s <= INT64_MAX -> 63 <= k -> Z.testbit s k = false.
Proof.
  intros Hs Hk. destruct (Z.eq_dec s 0) as [->|Hne].
  - apply Z.bits_0.
  - apply Z.bits_above_log2; [lia|].
    assert (Z.log2 s < 63); [|lia].
    apply Z.log2_lt_pow2; unfold INT64_MAX in Hs; lia.
Qed.

Lemma land_pow2_testbit (s k : Z) :
  0 <= s -> 0 <= k -> (Z.land s (2 ^ k) >? 0) = Z.testbit s k.
Proof.
  intros Hs Hk.
  assert (Hl : Z.land s (2 ^ k) = Z.b2z (Z.testbit s k) * 2 ^ k).
  { apply Z.bits_inj'. intros n Hn.
    rewrite Z.land_spec, Z.pow2_bits_eqb by lia.
    destruct (Z.eqb_spec k n) as [->|Hne].
    - rewrite andb_true_r. destruct (Z.testbit s n) eqn:E; cbn [Z.b2z].
      + rewrite Z.mul_1_l, Z.pow2_bits_true; auto.
      + rewrite Z.mul_0_l. symmetry; apply Z.bits_0.
    - rewrite andb_false_r. destruct (Z.testbit s k); cbn [Z.b2z].
      + rewrite Z.mul_1_l, Z.pow2_bits_false; auto.
      + rewrite Z.mul_0_l. symmetry; apply Z.bits_0. }
  rewrite Hl. assert (0 < 2 ^ k) by (apply Z.pow_pos_nonneg; lia).
  destruct (Z.testbit s k); cbn [Z.b2z]; [|reflexivity].
  apply Z.gtb_lt. lia.
Qed.

(** The bit computed for wire position [k] is bit [k] of the sample, whatever
    the position, as long as the sample is a non-negative 64-bit integer. *)
Lemma mask_bit (s : Z) (k : nat) :
  0 <= s <= INT64_MAX ->
  (if Z.land s (left_shift 1 (Z.of_nat k)) >? 0 then 1 else 0)
  = Z.b2z (Z.testbit s (Z.of_nat k)).
Proof.
  intros Hs.
  destruct (Z_lt_le_dec (Z.of_nat k) 63) as [Hk|Hk].
  - rewrite left_shift_one_small by lia.
    rewrite land_pow2_testbit by lia.
    destruct (Z.testbit s (Z.of_nat k)); reflexivity.
  - rewrite (testbit_high s (Z.of_nat k)) by lia. cbn [Z.b2z].
    destruct (Z_lt_le_dec (Z.of_nat k) 64) as [Hk'|Hk'].
    + replace (Z.of_nat k) with 63 by lia. rewrite left_shift_one_63.
      assert (Hz : Z.land s (- 2 ^ 63) = 0).
      { apply Z.bits_inj'. intros n Hn. rewrite Z.land_spec, Z.bits_0.
        destruct (Z_lt_le_dec n 63).
        - replace (- 2 ^ 63) with (Z.shiftl (-1) 63) by reflexivity.
          rewrite Z.shiftl_spec_low by lia. apply andb_false_r.
        - rewrite (testbit_high s n) by lia. reflexivity. }
      rewrite Hz. reflexivity.
    + rewrite left_shift_one_large by lia. rewrite Z.land_0_r. reflexivity.
Qed.

Lemma arange_S (n : nat) : arange (S n) = arange n ++ [Z.of_nat n].
Proof. unfold arange. rewrite seq_S, map_app. reflexivity. Qed.

Lemma binary_row_testbit (n : nat) (s : Z) :
  0 <= s <= INT64_MAX ->
  binary_row n s = rev (map (fun k => Z.b2z (Z.testbit s k)) (arange n)).
Proof.
  intros Hs. unfold binary_row, powers_of_two, arange. f_equal.
  rewrite !map_map. apply map_ext. intros k. apply mask_bit; assumption.
Qed.

Lemma binary_row_S (n : nat) (s : Z) :
  0 <= s <= INT64_MAX ->
  binary_row (S n) s = Z.b2z (Z.testbit s (Z.of_nat n)) :: binary_row n s.
Proof.
  intros Hs. rewrite !binary_row_testbit by assumption.
  rewrite arange_S, map_app, rev_app_distr. reflexivity.
Qed.

Lemma binary_row_length (n : nat) (s : Z) : length (binary_row n s) = n.
Proof.
  unfold binary_row, powers_of_two, arange.
  rewrite length_rev, !length_map, length_seq. reflexivity.
Qed.

Lemma mod_pow2_S (s : Z) (n : nat) :
  s mod 2 ^ Z.of_nat (S n)
  = Z.b2z (Z.testbit s (Z.of_nat n)) * 2 ^ Z.of_nat n + s mod 2 ^ Z.of_nat n.
Proof.
  rewrite Nat2Z.inj_succ, Z.pow_succ_r by lia.
  assert (Hp : 0 < 2 ^ Z.of_nat n) by (apply Z.pow_pos_nonneg; lia).
  rewrite (Z.mul_comm 2), Z.rem_mul_r by lia.
  rewrite Z.testbit_spec' by lia. lia.
Qed.

(** Reading a binary row as a mixed-radix number in base [2] continues the
    accumulator with the low bits of the sample. *)
Lemma ravel_binary_row (n : nat) (s acc : Z) :
  0 <= s <= INT64_MAX ->
  ravel_from acc (binary_row n s) (repeat 2 n)
  = Ok (acc * 2 ^ Z.of_nat n + s mod 2 ^ Z.of_nat n).
Proof.
  intros Hs. revert acc. induction n as [|n IH]; intros acc.
  - cbn. rewrite Z.mod_1_r. f_equal. lia.
  - rewrite binary_row_S by assumption. cbn [repeat ravel_from].
    assert (Hb : (0 <=? Z.b2z (Z.testbit s (Z.of_nat n)))
                 && (Z.b2z (Z.testbit s (Z.of_nat n)) <? 2) = true).
    { destruct (Z.testbit s (Z.of_nat n)); reflexivity. }
    rewrite Hb, IH, mod_pow2_S. f_equal.
    rewrite Nat2Z.inj_succ, Z.pow_succ_r by lia. ring.
Qed.

(** C3 (round trip): for a basis-state index [i] with [0 <= i < 2^N], held in
    an integer array, [states_to_binary([i], N)] read back with
    [ravel_multi_index] over the dimensions [[2]*N] (big-endian base 2) gives
    the index [i] again. *)
Theorem states_to_binary_roundtrip (N : nat) (i : Z) :
  0 <= i < 2 ^ Z.of_nat N ->
  i <= INT64_MAX ->
  mapM (fun row => ravel_multi_index row (repeat 2 N)) (states_to_binary [i] N)
  = Ok [i].
Proof.
  intros Hi Hmax. cbn [states_to_binary map mapM].
  unfold ravel_multi_index. rewrite ravel_binary_row by lia.
  rewrite Z.mod_small by lia. reflexivity.
Qed.

Lemma states_to_binary_roundtrip_witness :
  mapM (fun row => ravel_multi_index row (repeat 2 3)) (states_to_binary [5] 3)
  = Ok [5].
Proof.
  apply (states_to_binary_roundtrip 3 5); [vm_compute; split; [discriminate|reflexivity] | vm_compute; discriminate].
Defined.

(** ** Marginals and probabilities without wires *)

(** C2: [marginal_prob(prob, wires=None)] returns [prob] unchanged. *)
Theorem marginal_prob_None {B : Type} (d : QubitDevice B) (prob : list Q) :
  marginal_prob d prob None = Ok prob.
Proof. reflexivity. Qed.

Section DeviceProperties.

Context {B T : Type} `{Collaborators B T}.

Lemma wires_or_range_empty (d : QubitDevice B) :
  wires_or_range d (Some []) = wires_or_range d None.
Proof. reflexivity. Qed.

Lemma wires_or_range_full (d : QubitDevice B) :
  wires_or_range d (Some (seq 0 (num_wires d))) = seq 0 (num_wires d).
Proof.
  unfold wires_or_range. destruct (seq 0 (num_wires d)) eqn:E; reflexivity.
Qed.

(** C9: [probability] with an empty wire sequence is [probability] with
    [wires=None]: the empty sequence is replaced by the range of all device
    wires, so the answer is the one for all [num_wires] wires and not a
    marginal over no wire. *)
Theorem probability_empty_wires (d : QubitDevice B) :
  probability d (Some []) = probability d None
  /\ probability d (Some []) = probability d (Some (seq 0 (num_wires d)))
  /\ probability d (Some [])
     = if analytic d then analytic_probability d (Some (seq 0 (num_wires d)))
       else estimate_probability d (seq 0 (num_wires d)).
Proof.
  unfold probability.
  rewrite wires_or_range_empty, wires_or_range_full.
  repeat split; reflexivity.
Qed.

(** ** The statistics dispatcher *)

Lemma bind_assoc {X Y Z' : Type} (m : result X) (f : X -> result Y) (g : Y -> result Z') :
  (y <- (x <- m ;; f x) ;; g y) = (x <- m ;; y <- f x ;; g y).
Proof. destruct m; reflexivity. Qed.

(** The results so far are a prefix of the final ones. *)
Lemma statistics_loop_acc (d : QubitDevice B) (l : list Observable) (acc : list value) :
  statistics_loop d l acc = (r <- statistics_loop d l [] ;; Ok (acc ++ r)).
Proof.
  revert acc. induction l as [|o l IH]; intros acc.
  - cbn. rewrite app_nil_r. reflexivity.
  - cbn [statistics_loop]. destruct (return_type o).
    + destruct (expval d o); cbn [bind]; [|reflexivity].
      rewrite IH, (IH ([] ++ _)), bind_assoc. cbn [app].
      destruct (statistics_loop d l []); cbn [bind]; [|reflexivity].
      rewrite <- app_assoc. reflexivity.
    + destruct (var d o); cbn [bind]; [|reflexivity].
      rewrite IH, (IH ([] ++ _)), bind_assoc. cbn [app].
      destruct (statistics_loop d l []); cbn [bind]; [|reflexivity].
      rewrite <- app_assoc. reflexivity.
    + destruct (sample d o); cbn [bind]; [|reflexivity].
      rewrite IH, (IH ([] ++ _)), bind_assoc. cbn [app].
      destruct (statistics_loop d l []); cbn [bind]; [|reflexivity].
      rewrite <- app_assoc. reflexivity.
    + destruct (probability d (Some (translate d (wires o)))); cbn [bind]; [|reflexivity].
      rewrite IH, (IH ([] ++ _)), bind_assoc. cbn [app].
      destruct (statistics_loop d l []); cbn [bind]; [|reflexivity].
      rewrite <- app_assoc. reflexivity.
    + apply IH.
    + reflexivity.
Qed.

(** [statistics] on a concatenation: the first part, then the second. *)
Lemma statistics_app (d : QubitDevice B) (l1 l2 : list Observable) :
  statistics d (l1 ++ l2)
  = (r1 <- statistics d l1 ;; r2 <- statistics d l2 ;; Ok (r1 ++ r2)).
Proof.
  unfold statistics. generalize (@nil value) at 1 2.
  induction l1 as [|o l1 IH]; intros acc.
  - cbn [app statistics_loop bind]. apply statistics_loop_acc.
  - cbn [app statistics_loop].
    destruct (return_type o).
    + destruct (expval d o); cbn [bind]; [apply IH|reflexivity].
    + destruct (var d o); cbn [bind]; [apply IH|reflexivity].
    + destruct (sample d o); cbn [bind]; [apply IH|reflexivity].
    + destruct (probability d (Some (translate d (wires o)))); cbn [bind];
        [apply IH|reflexivity].
    + apply IH.
    + reflexivity.
Qed.

(** Every observable adds at most one result. *)
Lemma statistics_loop_length (d : QubitDevice B) (l : list Observable)
    (acc res : list value) :
  statistics_loop d l acc = Ok res ->
  (List.length res <= List.length acc + List.length l)%nat.
Proof.
  revert acc. induction l as [|o l IH]; intros acc; cbn [statistics_loop].
  - intros [= ->]. lia.
  - destruct (return_type o).
    + destruct (expval d o); cbn [bind]; [|discriminate].
      intros E. apply IH in E. rewrite length_app in E. cbn in *. lia.
    + destruct (var d o); cbn [bind]; [|discriminate].
      intros E. apply IH in E. rewrite length_app in E. cbn in *. lia.
    + destruct (sample d o); cbn [bind]; [|discriminate].
      intros E. apply IH in E. rewrite length_app in E. cbn in *. lia.
    + destruct (probability d (Some (translate d (wires o)))); cbn [bind]; [|discriminate].
      intros E. apply IH in E. rewrite length_app in E. cbn in *. lia.
    + intros E. apply IH in E. cbn. lia.
    + discriminate.
Qed.

Lemma statistics_length (d : QubitDevice B) (l : list Observable) (res : list value) :
  statistics d l = Ok res -> (List.length res <= List.length l)%nat.
Proof. intros E. apply statistics_loop_length in E. exact E. Qed.

Lemma statistics_single_none (d : QubitDevice B) (o : Observable) :
  return_type o = NoReturnType -> statistics d [o] = Ok [].
Proof. intros E. unfold statistics. cbn. rewrite E. reflexivity. Qed.

Lemma bind_ret {X : Type} (m : result X) : (x <- m ;; Ok x) = m.
Proof. destruct m; reflexivity. Qed.

(** C10: an observable whose return type is [None] is skipped by
    [statistics]: the outcome, results or exception, is the one for the list
    without it, and the list of results is shorter than the list of
    observables. *)
Theorem statistics_skips_none (d : QubitDevice B) (pre post : list Observable)
    (o : Observable) :
  return_type o = NoReturnType ->
  statistics d (pre ++ o :: post) = statistics d (pre ++ post)
  /\ match statistics d (pre ++ o :: post) with
     | Ok res => (List.length res < List.length (pre ++ o :: post))%nat
     | Raise _ => True
     end.
Proof.
  intros E.
  assert (Heq : statistics d (pre ++ o :: post) = statistics d (pre ++ post)).
  { change (o :: post) with ([o] ++ post).
    rewrite !statistics_app, statistics_single_none by assumption.
    cbn [bind app]. rewrite bind_ret. reflexivity. }
  split; [exact Heq|].
  rewrite Heq. destruct (statistics d (pre ++ post)) as [res|e] eqn:E'; [|exact I].
  apply statistics_length in E'. rewrite length_app in *. cbn. lia.
Qed.

Lemma statistics_single_other (d : QubitDevice B) (o : Observable) (tag : string) :
  return_type o = OtherReturnType tag ->
  forall post,
  statistics d (o :: post)
  = Raise (QuantumFunctionError
             ("Unsupported return type specified for observable "
              ++ format_name (name o))%string).
Proof. intros E post. unfold statistics. cbn. rewrite E. reflexivity. Qed.

(** What [execute] does once the circuit is accepted and applied: the
    samples are generated where needed, and an exception of [statistics]
    is the outcome. *)
Lemma execute_statistics_raise (d d1 : QubitDevice B) (c : CircuitGraph)
    (kwargs : list (string * Z)) (u u' : unit) (e : exn) :
  check_validity d (operations c) (observables c) = Ok u ->
  apply (operations c) (diagonalizing_gates c) kwargs
        (set_circuit_hash d (Some (hash c))) = (Ok u', d1) ->
  forall d2,
  (if (negb (analytic d1) || is_sampled c)%bool
   then s <- generate_samples d1 ;; Ok (set_samples d1 (Some s))
   else Ok d1) = Ok d2 ->
  statistics d2 (observables c) = Raise e ->
  execute d c kwargs = (Raise e, d2).
Proof.
  intros Hc Ha d2 Hs Hst. unfold execute. rewrite Hc, Ha, Hs, Hst. reflexivity.
Qed.

End DeviceProperties.

Section StatisticsErrors.

Context {B T : Type} `{Collaborators B T}.

(** C6, as the code has it: when [statistics] reaches an observable whose
    return type is neither one of [Expectation], [Variance], [Sample],
    [Probability] nor [None] (the observables before it were processed
    without an exception), it raises [QuantumFunctionError] with a message
    that ends in the name of that observable, and [execute] ends with that
    same exception. *)
Theorem unsupported_return_type_raises (d d1 d2 : QubitDevice B) (c : CircuitGraph)
    (kwargs : list (string * Z)) (u u' : unit)
    (pre post : list Observable) (o : Observable) (tag : string) (res : list value) :
  observables c = pre ++ o :: post ->
  return_type o = OtherReturnType tag ->
  check_validity d (operations c) (observables c) = Ok u ->
  apply (operations c) (diagonalizing_gates c) kwargs
        (set_circuit_hash d (Some (hash c))) = (Ok u', d1) ->
  (if (negb (analytic d1) || is_sampled c)%bool
   then s <- generate_samples d1 ;; Ok (set_samples d1 (Some s))
   else Ok d1) = Ok d2 ->
  statistics d2 pre = Ok res ->
  let e := QuantumFunctionError
             ("Unsupported return type specified for observable "
              ++ format_name (name o))%string in
  statistics d2 (observables c) = Raise e
  /\ execute d c kwargs = (Raise e, d2).
Proof.
  intros Hobs Htag Hc Ha Hs Hpre e.
  assert (Hst : statistics d2 (observables c) = Raise e).
  { rewrite Hobs, statistics_app, Hpre. cbn [bind].
    rewrite (statistics_single_other d2 o tag Htag). reflexivity. }
  split; [exact Hst|].
  eapply execute_statistics_raise; eassumption.
Qed.

Lemma negb_forallb {A : Type} (f : A -> bool) (l : list A) :
  negb (forallb f l) = existsb (fun a => negb (f a)) l.
Proof.
  induction l as [|a l IH]; [reflexivity|].
  cbn. rewrite negb_andb, IH. reflexivity.
Qed.

Lemma existsb_false_on {A : Type} (f : A -> bool) (l : list A) :
  (forall a, In a l -> f a = false) -> existsb f l = false.
Proof.
  intros Hf. induction l as [|a l IH]; [reflexivity|].
  cbn. rewrite (Hf a (or_introl eq_refl)), IH; [reflexivity|].
  intros b Hb. apply Hf. right. exact Hb.
Qed.

(** What a successful [execute] returns. *)
Lemma execute_ok (d d' : QubitDevice B) (c : CircuitGraph)
    (kwargs : list (string * Z)) (r : T) :
  execute d c kwargs = (Ok r, d') ->
  exists results,
    statistics d' (observables c) = Ok results
    /\ r = _asarray results
             (if (is_sampled c && negb (forallb is_sample (observables c)))%bool
              then Some Object else None).
Proof.
  unfold execute.
  destruct (check_validity d (operations c) (observables c)); [|discriminate].
  destruct (apply _ _ _ _) as [[?|?] d1]; [|discriminate].
  destruct (if (negb (analytic d1) || is_sampled c)%bool then _ else _) as [d2|];
    [|discriminate].
  destruct (statistics d2 (observables c)) as [results|] eqn:Hst; [|discriminate].
  fold is_sample.
  change (forallb (fun obs => is_tag (return_type obs) Sample) (observables c))
    with (forallb is_sample (observables c)).
  destruct (is_sampled c && negb (forallb is_sample (observables c)))%bool;
    intros [= <- <-]; exists results; split; auto.
Qed.

(** C7, as the code has it: a successful [execute] returns [_asarray] of the
    list of statistics; when the circuit's flag [is_sampled] tells whether
    some observable has return type [Sample], the array is asked for with
    [dtype="object"] exactly when some observable has return type [Sample] and
    some other has not, whatever the shapes of the statistics; with no
    observable of return type [Sample], or with all observables of one return
    type, no [dtype] is asked for. *)
Theorem execute_result_container (d d' : QubitDevice B) (c : CircuitGraph)
    (kwargs : list (string * Z)) (r : T) :
  execute d c kwargs = (Ok r, d') ->
  is_sampled c = existsb is_sample (observables c) ->
  exists results,
    statistics d' (observables c) = Ok results
    /\ r = _asarray results
             (if (existsb is_sample (observables c)
                  && existsb (fun o => negb (is_sample o)) (observables c))%bool
              then Some Object else None)
    /\ ((forall o, In o (observables c) -> return_type o <> Sample) ->
        r = _asarray results None)
    /\ (forall t, (forall o, In o (observables c) -> return_type o = t) ->
        r = _asarray results None).
Proof.
  intros Hex Hflag. apply execute_ok in Hex. destruct Hex as (results & Hst & Hr).
  rewrite Hflag, negb_forallb in Hr.
  exists results. split; [exact Hst|]. split; [exact Hr|]. split.
  - intros Hno. rewrite Hr, existsb_false_on; [reflexivity|].
    intros o Ho. specialize (Hno o Ho). unfold is_sample.
    destruct (return_type o); try reflexivity. congruence.
  - intros t Hall. rewrite Hr.
    destruct (is_tag t Sample) eqn:Et.
    + rewrite (existsb_false_on (fun o => negb (is_sample o))), andb_false_r; [reflexivity|].
      intros o Ho. unfold is_sample. rewrite (Hall o Ho), Et. reflexivity.
    + rewrite (existsb_false_on is_sample); [reflexivity|].
      intros o Ho. unfold is_sample. rewrite (Hall o Ho). exact Et.
Qed.

End StatisticsErrors.

Lemma statistics_skips_none_witness :
  statistics (H := simulator []) one_qubit
             ([pauli_z Expectation] ++ pauli_z NoReturnType :: [pauli_z Variance])
  = statistics (H := simulator []) one_qubit ([pauli_z Expectation] ++ [pauli_z Variance])
  /\ match statistics (H := simulator []) one_qubit
             ([pauli_z Expectation] ++ pauli_z NoReturnType :: [pauli_z Variance]) with
     | Ok res => (List.length res
                  < List.length ([pauli_z Expectation] ++ pauli_z NoReturnType
                                   :: [pauli_z Variance]))%nat
     | Raise _ => True
     end.
Proof.
  apply (statistics_skips_none (H := simulator []) one_qubit
           [pauli_z Expectation] [pauli_z Variance] (pauli_z NoReturnType)).
  reflexivity.
Defined.

(** An observable whose return type is [None] is not one of the four
    supported ones, and neither [statistics] nor [execute] raise for it. *)
Lemma statistics_none_not_raised :
  ~ In (return_type (pauli_z NoReturnType)) [Expectation; Variance; Sample; Probability]
  /\ statistics (H := simulator []) one_qubit [pauli_z NoReturnType] = Ok []
  /\ fst (execute (H := simulator []) one_qubit
                  (circuit_of [pauli_z NoReturnType] false) [])
     = Ok ([], None).
Proof.
  split; [|split; reflexivity].
  cbn. intros [E|[E|[E|[E|[]]]]]; discriminate.
Qed.

Lemma unsupported_return_type_raises_witness :
  let d2 := set_circuit_hash one_qubit (Some 7) in
  let c := circuit_of [pauli_z Expectation; pauli_z (OtherReturnType "Counts")] false in
  let e := QuantumFunctionError
             "Unsupported return type specified for observable PauliZ" in
  statistics (H := simulator []) d2 (observables c) = Raise e
  /\ execute (H := simulator []) one_qubit c [] = (Raise e, d2).
Proof.
  intros d2 c e.
  eapply (unsupported_return_type_raises (H := simulator []) one_qubit d2 d2 c []
            tt tt [pauli_z Expectation] [] (pauli_z (OtherReturnType "Counts")) "Counts");
    reflexivity.
Defined.

(** A sample of [PauliZ] and the probabilities of its wire on a device with
    two shots: both statistics have shape [(2,)], and the result is asked for
    with [dtype="object"] all the same. *)
Lemma execute_object_same_shapes :
  exists results,
    fst (execute (H := simulator [0; 1]) one_qubit
                 (circuit_of [pauli_z Sample; pauli_z Probability] true) [])
    = Ok (results, Some Object)
    /\ forall v w, In v results -> In w results -> value_shape v = value_shape w.
Proof.
  eexists. split; [reflexivity|].
  intros v w [<-|[<-|[]]] [<-|[<-|[]]]; reflexivity.
Qed.

Lemma execute_result_container_witness :
  let sim := simulator [0; 1] in
  let c := circuit_of [pauli_z Sample; pauli_z Expectation] true in
  let d' := set_samples (set_circuit_hash one_qubit (Some 7))
                        (Some (mkMatrix 1 [[0]; [1]])) in
  let r := ([Vector [of_Z 1; of_Z (-1)]; Scalar (mkC (0 # 4) 0)], Some Object) in
  exists results,
    statistics (H := sim) d' (observables c) = Ok results
    /\ r = _asarray (Collaborators := sim) results
             (if (existsb is_sample (observables c)
                  && existsb (fun o => negb (is_sample o)) (observables c))%bool
              then Some Object else None)
    /\ ((forall o, In o (observables c) -> return_type o <> Sample) ->
        r = _asarray (Collaborators := sim) results None)
    /\ (forall t, (forall o, In o (observables c) -> return_type o = t) ->
        r = _asarray (Collaborators := sim) results None).
Proof.
  intros sim c d' r.
  apply (execute_result_container (H := sim) one_qubit d' c [] r); reflexivity.
Defined.

(** ** Analytic expectation values and variances *)

Lemma inner_product_cons (x : complex) (e : list complex) (y : Q) (p : list Q) :
  inner_product (x :: e) (y :: p) = Cadd (Cmul x (of_Q y)) (inner_product e p).
Proof.
  unfold inner_product. cbn [List.length seq map fold_right nth].
  rewrite <- seq_shift, map_map. reflexivity.
Qed.

(** The product [@] of two arrays of one length is their inner product. *)
Lemma matmul_inner_product (e : list complex) (p : list Q) :
  List.length e = List.length p -> matmul e p = Ok (inner_product e p).
Proof.
  revert p. induction e as [|x e IH]; intros [|y p] Hlen; try discriminate.
  - reflexivity.
  - cbn [matmul]. rewrite IH by (cbn in Hlen; lia). cbn [bind].
    rewrite inner_product_cons. reflexivity.
Qed.

Lemma inner_product_real (e : list complex) (p : list Q) :
  List.length e = List.length p ->
  Forall (fun x => im x == 0)%Q e ->
  (im (inner_product e p) == 0)%Q.
Proof.
  revert p. induction e as [|x e IH]; intros [|y p] Hlen Hre; try discriminate.
  - reflexivity.
  - rewrite inner_product_cons. inversion Hre as [|? ? Hx He]; subst.
    cbn [Cadd Cmul im re of_Q].
    rewrite (IH p) by (cbn in Hlen; auto; lia). rewrite Hx. ring.
Qed.

Lemma square_real_eq (s : complex) :
  (im s == 0)%Q -> Ceq (square (real s)) (square s).
Proof.
  intros Hs. unfold Ceq, square, real, Cmul, of_Q. cbn [re im].
  split; rewrite Hs; ring.
Qed.

Lemma Csub_Ceq (a b c : complex) : Ceq b c -> Ceq (Csub a b) (Csub a c).
Proof.
  intros [Hr Hi]. unfold Ceq, Csub. cbn [re im]. split; [rewrite Hr|rewrite Hi]; reflexivity.
Qed.

Section Analytic.

Context {B T : Type} `{Collaborators B T}.

(** C5: on a device in analytic mode, for an observable with the real
    eigenvalues [e] and the probability vector [p] of its translated wires,
    [expval] is the real part of the inner product [e . p] and [var] is
    [(e^2) . p - (e . p)^2]. *)
Theorem analytic_expval_var (d : QubitDevice B) (obs : Observable) (p : list Q) :
  analytic d = true ->
  probability d (Some (translate d (wires obs))) = Ok p ->
  List.length (eigvals obs) = List.length p ->
  Forall (fun x => im x == 0)%Q (eigvals obs) ->
  expval d obs = Ok (real (inner_product (eigvals obs) p))
  /\ exists v,
       var d obs = Ok v
       /\ v = Csub (inner_product (map square (eigvals obs)) p)
                   (square (real (inner_product (eigvals obs) p)))
       /\ Ceq v (Csub (inner_product (map square (eigvals obs)) p)
                      (square (inner_product (eigvals obs) p))).
Proof.
  intros Ha Hp Hlen Hre. split.
  - unfold expval. rewrite Ha, Hp. cbn [bind].
    rewrite matmul_inner_product by assumption. reflexivity.
  - eexists. split; [|split; [reflexivity|]].
    + unfold var. rewrite Ha, Hp. cbn [bind].
      rewrite !matmul_inner_product by (rewrite ?length_map; assumption).
      reflexivity.
    + apply Csub_Ceq, square_real_eq, inner_product_real; assumption.
Qed.

End Analytic.

Lemma analytic_expval_var_witness :
  let sim := simulator [] in
  let obs := pauli_z Expectation in
  let p := [(1 # 2) + (0 + 0); (1 # 2) + (0 + 0)]%Q in
  expval (H := sim) two_qubits obs = Ok (real (inner_product (eigvals obs) p))
  /\ exists v,
       var (H := sim) two_qubits obs = Ok v
       /\ v = Csub (inner_product (map square (eigvals obs)) p)
                   (square (real (inner_product (eigvals obs) p)))
       /\ Ceq v (Csub (inner_product (map square (eigvals obs)) p)
                      (square (inner_product (eigvals obs) p))).
Proof.
  intros sim obs p.
  apply (analytic_expval_var (H := sim) two_qubits obs p).
  - reflexivity.
  - reflexivity.
  - reflexivity.
  - repeat constructor.
Defined.

(** ** Sample generation *)

Lemma rev_map_seq {A : Type} (g : nat -> A) (n : nat) :
  rev (map g (seq 0 n)) = map (fun k => g (n - 1 - k)%nat) (seq 0 n).
Proof.
  induction n as [|n IH]; [reflexivity|].
  rewrite seq_S at 1. rewrite map_app, rev_app_distr. cbn [map rev app Nat.add].
  rewrite IH. cbn [seq map]. f_equal.
  - f_equal. lia.
  - rewrite <- seq_shift, map_map. apply map_ext. intros k. f_equal. lia.
Qed.

(** A row of [states_to_binary] is the big-endian binary expansion of the
    sample. *)
Lemma binary_row_big_endian (n : nat) (s : Z) :
  0 <= s <= INT64_MAX -> binary_row n s = big_endian_bits n s.
Proof.
  intros Hs. rewrite binary_row_testbit by assumption.
  unfold arange, big_endian_bits. rewrite map_map. apply rev_map_seq.
Qed.

Lemma in_arange (n : nat) (s : Z) : In s (arange n) -> 0 <= s < Z.of_nat n.
Proof.
  unfold arange. rewrite in_map_iff. intros (k & <- & Hk).
  apply in_seq in Hk. lia.
Qed.

Section Sampling.

Context {B T : Type} `{Collaborators B T}.

(** C8: with the analytic distribution [p] over the [2^N] basis states,
    [generate_samples] asks the random choice for [shots] draws from the basis
    states [0 .. 2^N - 1] with the weights [p]; for draws that are that many
    elements of the population, it returns an array of shape [(shots, N)]
    whose rows are the big-endian [N]-bit expansions of the draws, in their
    order. *)
Theorem generate_samples_rows (d : QubitDevice B) (p : list Q) (draws : list Z) :
  analytic_probability d None = Ok p ->
  np_random_choice (arange (2 ^ num_wires d)) (shots d) p = Ok draws ->
  List.length draws = Pos.to_nat (shots d) ->
  Forall (fun s => In s (arange (2 ^ num_wires d)) /\ s <= INT64_MAX) draws ->
  exists m,
    generate_samples d = Ok m
    /\ n_cols m = num_wires d
    /\ List.length (rows m) = Pos.to_nat (shots d)
    /\ Forall (fun r => List.length r = num_wires d) (rows m)
    /\ rows m = map (big_endian_bits (num_wires d)) draws.
Proof.
  intros Hp Hc Hlen Hdraws.
  exists (mkMatrix (num_wires d) (states_to_binary draws (num_wires d))).
  split; [|split; [reflexivity|split; [|split]]]; cbn [rows].
  - unfold generate_samples, sample_basis_states. rewrite Hp. cbn [bind].
    rewrite Hc. reflexivity.
  - unfold states_to_binary. rewrite length_map. exact Hlen.
  - unfold states_to_binary. apply Forall_map, Forall_forall.
    intros s _. apply binary_row_length.
  - unfold states_to_binary. apply map_ext_in. intros s Hs.
    rewrite Forall_forall in Hdraws. destruct (Hdraws s Hs) as [Hin Hmax].
    apply in_arange in Hin. apply binary_row_big_endian. lia.
Qed.

End Sampling.

Lemma generate_samples_rows_witness :
  let sim := simulator [2; 0; 3] in
  let d := simulator_device 2 3 [1 # 4; 1 # 4; 1 # 4; 1 # 4]%Q in
  exists m,
    generate_samples (H := sim) d = Ok m
    /\ n_cols m = 2%nat
    /\ List.length (rows m) = 3%nat
    /\ Forall (fun r => List.length r = 2%nat) (rows m)
    /\ rows m = map (big_endian_bits 2) [2; 0; 3].
Proof.
  intros sim d.
  apply (generate_samples_rows (H := sim) d [1 # 4; 1 # 4; 1 # 4; 1 # 4]%Q [2; 0; 3]).
  - reflexivity.
  - reflexivity.
  - reflexivity.
  - repeat constructor; cbn; try lia; unfold INT64_MAX; lia.
Defined.

(** ** Counting basis states *)

Lemma occurrences_cons (v x : Z) (l : list Z) :
  occurrences v (x :: l) = ((if (v =? x)%Z then 1 else 0) + occurrences v l)%nat.
Proof. unfold occurrences. cbn [filter]. destruct (v =? x); reflexivity. Qed.

Lemma occurrences_zero (v : Z) (l : list Z) : ~ In v l -> occurrences v l = 0%nat.
Proof.
  induction l as [|x l IH]; intros Hn; [reflexivity|].
  rewrite occurrences_cons, IH by (intros Hin; apply Hn; right; exact Hin).
  destruct (Z.eqb_spec v x) as [->|]; [|reflexivity].
  exfalso. apply Hn. left. reflexivity.
Qed.

Lemma occurrences_pos (v : Z) (l : list Z) : In v l -> (0 < occurrences v l)%nat.
Proof.
  induction l as [|x l IH]; intros Hin; [destruct Hin|].
  rewrite occurrences_cons. destruct (Z.eqb_spec v x) as [->|Hne]; [lia|].
  destruct Hin as [->|Hin]; [congruence|]. cbn. apply IH, Hin.
Qed.

Lemma occurrences_insert (v x : Z) (l : list Z) :
  occurrences v (insert x l) = occurrences v (x :: l).
Proof.
  induction l as [|y l IH]; [reflexivity|].
  cbn [insert]. destruct (x <=? y); [reflexivity|].
  rewrite occurrences_cons, IH, !occurrences_cons. lia.
Qed.

Lemma occurrences_sort (v : Z) (l : list Z) :
  occurrences v (sort l) = occurrences v l.
Proof.
  induction l as [|x l IH]; [reflexivity|].
  cbn [sort fold_right]. fold (sort l).
  rewrite occurrences_insert, !occurrences_cons, IH. reflexivity.
Qed.

Lemma in_insert (v x : Z) (l : list Z) : In v (insert x l) <-> v = x \/ In v l.
Proof.
  induction l as [|y l IH]; cbn [insert].
  - cbn. intuition.
  - destruct (x <=? y); cbn [In]; [intuition|]. rewrite IH. intuition.
Qed.

Lemma insert_sorted (x : Z) (l : list Z) :
  StronglySorted Z.le l -> StronglySorted Z.le (insert x l).
Proof.
  induction 1 as [|y l Hs IH Hy]; cbn [insert].
  - repeat constructor.
  - destruct (Z.leb_spec x y) as [Hxy|Hxy].
    + constructor; [constructor; assumption|].
      constructor; [exact Hxy|].
      eapply Forall_impl; [|exact Hy]. cbn. intros; lia.
    + constructor; [exact IH|].
      apply Forall_forall. intros z Hz. apply in_insert in Hz.
      destruct Hz as [->|Hz]; [lia|].
      rewrite Forall_forall in Hy. apply Hy, Hz.
Qed.

Lemma sort_sorted (l : list Z) : StronglySorted Z.le (sort l).
Proof.
  induction l as [|x l IH]; [constructor|].
  cbn [sort fold_right]. apply insert_sorted, IH.
Qed.

(** The runs of a sorted list: strictly increasing values, each with the
    number of its occurrences, and every element of the list among them. *)
Lemma run_lengths_sorted (l : list Z) :
  StronglySorted Z.le l ->
  StronglySorted Z.lt (map fst (run_lengths l))
  /\ (forall v c, In (v, c) (run_lengths l) -> c = occurrences v l)
  /\ (forall v, In v l <-> In v (map fst (run_lengths l))).
Proof.
  induction 1 as [|x l Hs IH Hx]; [cbn; repeat split; try constructor; intros; tauto|].
  destruct IH as (Hlt & Hocc & Hin).
  rewrite Forall_forall in Hx.
  cbn [run_lengths]. destruct (run_lengths l) as [|[y c] r] eqn:ER.
  - assert (Hnil : forall v, ~ In v l) by (intros v Hv; apply Hin in Hv; exact Hv).
    cbn [map fst]. repeat split.
    + repeat constructor.
    + intros v c [[= <- <-]|[]]. rewrite occurrences_cons, Z.eqb_refl.
      rewrite occurrences_zero by apply Hnil. reflexivity.
    + intros [->|Hv]; [left; reflexivity|]. exfalso. eapply Hnil, Hv.
    + intros [->|[]]. left. reflexivity.
  - cbn [map fst] in *.
    assert (Hy : In y l) by (apply Hin; left; reflexivity).
    assert (Hxy : x <= y) by (apply Hx, Hy).
    inversion Hlt as [|? ? Hlt' Hyr]; subst. rewrite Forall_forall in Hyr.
    destruct (Z.eqb_spec x y) as [<-|Hne]; cbn [map fst].
    + repeat split.
      * constructor; [assumption|apply Forall_forall; exact Hyr].
      * intros v c' [[= <- <-]|Hv].
        -- rewrite occurrences_cons, Z.eqb_refl.
           rewrite <- (Hocc x c) by (left; reflexivity). reflexivity.
        -- assert (x < v) by (apply Hyr, in_map_iff; exists (v, c'); auto).
           rewrite occurrences_cons.
           destruct (Z.eqb_spec v x); [lia|]. apply Hocc. right. exact Hv.
      * intros [->|Hv]; [left; reflexivity|]. apply Hin, Hv.
      * intros [->|Hv]; [left; reflexivity|]. right. apply Hin. right. exact Hv.
    + assert (Hnx : ~ In x l).
      { intros Hxl. apply Hin in Hxl. destruct Hxl as [->|Hxl]; [congruence|].
        apply Hyr in Hxl. lia. }
      repeat split.
      * constructor; [exact Hlt|]. constructor; [lia|].
        apply Forall_forall. intros z Hz. apply Hyr in Hz. lia.
      * intros v c' [[= <- <-]|Hv].
        -- rewrite occurrences_cons, Z.eqb_refl, occurrences_zero by assumption.
           reflexivity.
        -- rewrite occurrences_cons. destruct (Z.eqb_spec v x) as [->|_].
           ++ exfalso. apply Hnx, Hin.
              change (In (fst (x, c')) (map fst ((y, c) :: r))).
              apply in_map. exact Hv.
           ++ apply Hocc, Hv.
      * intros [->|Hv]; [left; reflexivity|]. right. apply Hin, Hv.
      * intros [->|Hv]; [left; reflexivity|]. right. apply Hin, Hv.
Qed.

Lemma sorted_lt_NoDup (l : list Z) : StronglySorted Z.lt l -> NoDup l.
Proof.
  induction 1 as [|x l Hs IH Hx]; constructor; [|exact IH].
  intros Hin. rewrite Forall_forall in Hx. apply Hx in Hin. lia.
Qed.

(** [np.unique] with its counts: distinct values, exactly those of the array,
    each with the number of its occurrences. *)
Lemma unique_counts_spec (a : list Z) :
  let (values, counts) := unique_counts a in
  NoDup values
  /\ List.length values = List.length counts
  /\ (forall v, In v values <-> In v a)
  /\ (forall v c, In (v, c) (combine values counts) -> c = occurrences v a).
Proof.
  unfold unique_counts.
  destruct (run_lengths_sorted (sort a) (sort_sorted a)) as (Hlt & Hocc & Hin).
  repeat split.
  - apply sorted_lt_NoDup, Hlt.
  - rewrite !length_map. reflexivity.
  - intros Hv. apply Hin in Hv.
    destruct (in_dec Z.eq_dec v a) as [|Hn]; [assumption|].
    apply occurrences_pos in Hv. rewrite occurrences_sort, occurrences_zero in Hv by assumption.
    lia.
  - intros Hv. apply Hin.
    destruct (in_dec Z.eq_dec v (sort a)) as [|Hn]; [assumption|].
    apply occurrences_pos in Hv. rewrite <- occurrences_sort, occurrences_zero in Hv by assumption.
    lia.
  - intros v c Hvc. rewrite <- occurrences_sort. apply Hocc.
    assert (Hc : combine (map fst (run_lengths (sort a))) (map snd (run_lengths (sort a)))
                 = run_lengths (sort a)).
    { generalize (run_lengths (sort a)). intros R.
      induction R as [|[? ?] R IHR]; [reflexivity|]. cbn. rewrite IHR. reflexivity. }
    rewrite Hc in Hvc. exact Hvc.
Qed.

Lemma setitem_ok {A : Type} (a : list A) (i : nat) (v d : A) :
  (i < List.length a)%nat ->
  exists a',
    setitem a i v = Ok a'
    /\ List.length a' = List.length a
    /\ nth i a' d = v
    /\ forall j, j <> i -> nth j a' d = nth j a d.
Proof.
  revert i. induction a as [|x a IH]; intros i Hi; [cbn in Hi; lia|].
  destruct i as [|i]; cbn [setitem].
  - exists (v :: a). repeat split. intros [|j] Hj; [congruence|reflexivity].
  - destruct (IH i) as (a' & -> & Hlen & Hnth & Hother); [cbn in Hi; lia|].
    exists (x :: a'). cbn [bind List.length nth]. repeat split; auto.
    intros [|j] Hj; [reflexivity|]. apply Hother. congruence.
Qed.

(** Writing values at distinct valid indices: each index holds its value, the
    other entries are untouched. *)
Lemma setitems_ok {A : Type} (indices : list Z) (values a : list A) (d : A) :
  List.length indices = List.length values ->
  Forall (fun i => 0 <= i < Z.of_nat (List.length a)) indices ->
  NoDup indices ->
  exists a',
    setitems a indices values = Ok a'
    /\ List.length a' = List.length a
    /\ (forall i v, In (i, v) (combine indices values) -> nth (Z.to_nat i) a' d = v)
    /\ (forall j, ~ In (Z.of_nat j) indices -> nth j a' d = nth j a d).
Proof.
  revert values a. induction indices as [|i indices IH]; intros [|v values] a Hlen Hrange Hnd;
    try discriminate.
  - exists a. cbn. repeat split; auto. intros ? ? [].
  - inversion Hrange as [|? ? Hi Hrange']; subst.
    inversion Hnd as [|? ? Hni Hnd']; subst.
    destruct (setitem_ok a (Z.to_nat i) v d) as (a1 & E1 & Hlen1 & Hnth1 & Hother1); [lia|].
    destruct (IH values a1) as (a' & E' & Hlen' & Hin' & Hout').
    { cbn in Hlen. lia. }
    { rewrite Hlen1. exact Hrange'. }
    { exact Hnd'. }
    exists a'. cbn [setitems]. rewrite E1. cbn [bind]. repeat split.
    + exact E'.
    + congruence.
    + intros i' v' [[= <- <-]|Hin].
      * rewrite Hout'; [exact Hnth1|]. rewrite Z2Nat.id by lia. exact Hni.
      * apply Hin', Hin.
    + intros j Hj. rewrite Hout' by (intros Hin; apply Hj; right; exact Hin).
      apply Hother1. intros ->. apply Hj. left. rewrite Z2Nat.id; lia.
Qed.

Lemma ravel_from_bits (bits : list Z) (acc : Z) :
  Forall (fun b => b = 0 \/ b = 1) bits ->
  ravel_from acc bits (repeat 2 (List.length bits))
  = Ok (fold_left (fun a b => 2 * a + b) bits acc).
Proof.
  intros Hb. revert acc. induction Hb as [|b bits Hb _ IH]; intros acc; [reflexivity|].
  cbn [List.length repeat ravel_from fold_left].
  replace ((0 <=? b) && (b <? 2))%bool with true by (destruct Hb; subst; reflexivity).
  rewrite IH. do 2 f_equal. lia.
Qed.

Lemma fold_bits_range (bits : list Z) (acc : Z) :
  Forall (fun b => b = 0 \/ b = 1) bits ->
  acc * 2 ^ Z.of_nat (List.length bits)
  <= fold_left (fun a b => 2 * a + b) bits acc
  < (acc + 1) * 2 ^ Z.of_nat (List.length bits).
Proof.
  intros Hb. revert acc. induction Hb as [|b bits Hb _ IH]; intros acc.
  - cbn. lia.
  - cbn [List.length fold_left]. rewrite Nat2Z.inj_succ, Z.pow_succ_r by lia.
    specialize (IH (2 * acc + b)).
    assert (0 < 2 ^ Z.of_nat (List.length bits)) by (apply Z.pow_pos_nonneg; lia).
    destruct Hb; subst; nia.
Qed.

Lemma columns_index_fold (W : list nat) (r : list Z) :
  columns_index W r = fold_left (fun a b => 2 * a + b) (map (fun w => nth w r 0) W) 0.
Proof.
  unfold columns_index.
  assert (Hacc : forall acc,
            fold_left (fun a w => 2 * a + nth w r 0) W acc
            = fold_left (fun a b => 2 * a + b) (map (fun w => nth w r 0) W) acc).
  { induction W as [|w W IH]; intros acc; [reflexivity|]. cbn [fold_left map]. apply IH. }
  apply Hacc.
Qed.

Lemma mapM_map_ok {X Y : Type} (f : X -> result Y) (g : X -> Y) (l : list X) :
  (forall x, In x l -> f x = Ok (g x)) -> mapM f l = Ok (map g l).
Proof.
  intros Hf. induction l as [|x l IH]; [reflexivity|].
  cbn [mapM map]. rewrite (Hf x) by (left; reflexivity). cbn [bind].
  rewrite IH by (intros y Hy; apply Hf; right; exact Hy). reflexivity.
Qed.

Lemma occurrences_map {X : Type} (f : X -> Z) (v : Z) (l : list X) :
  occurrences v (map f l) = List.length (filter (fun x => Z.eqb v (f x)) l).
Proof.
  unfold occurrences. induction l as [|x l IH]; [reflexivity|].
  cbn [map filter]. destruct (v =? f x); cbn [List.length]; rewrite IH; reflexivity.
Qed.

Lemma pow2_nat_Z (k : nat) : Z.of_nat (2 ^ k) = 2 ^ Z.of_nat k.
Proof. rewrite Nat2Z.inj_pow. reflexivity. Qed.

Lemma in_combine_exists {X Y : Type} (xs : list X) (ys : list Y) (x : X) :
  List.length xs = List.length ys -> In x xs -> exists y, In (x, y) (combine xs ys).
Proof.
  revert ys. induction xs as [|x' xs IH]; intros [|y ys] Hlen Hin; try discriminate;
    try (destruct Hin; fail).
  destruct Hin as [->|Hin].
  - exists y. left. reflexivity.
  - destruct (IH ys) as (y' & Hy'); [cbn in Hlen; lia|exact Hin|].
    exists y'. right. exact Hy'.
Qed.

Lemma in_combine_map {X Y Y' : Type} (f : Y -> Y') (xs : list X) (ys : list Y)
    (x : X) (y : Y) :
  In (x, y) (combine xs ys) -> In (x, f y) (combine xs (map f ys)).
Proof.
  revert ys. induction xs as [|x' xs IH]; intros [|y' ys] Hin; try (destruct Hin; fail).
  destruct Hin as [[= -> ->]|Hin]; [left; reflexivity|right; apply IH, Hin].
Qed.

Section Estimate.

Context {B : Type}.

(** C4: with stored samples of [num_wires] columns with entries in [{0,1}] and
    a non-empty sequence [W] of device wires, [estimate_probability(W)]
    returns a vector of length [2^|W|] whose entry [j] is the number of sample
    rows whose columns [W] read as the big-endian base-2 number [j], divided
    by the shot count of the device, and [0] where no row reads as [j]. *)
Theorem estimate_probability_counts (d : QubitDevice B) (m : matrix) (W : list nat) :
  _samples d = Some m ->
  n_cols m = num_wires d ->
  Forall (fun r => List.length r = num_wires d /\ Forall (fun b => b = 0 \/ b = 1) r)
         (rows m) ->
  W <> [] ->
  Forall (fun w => (w < num_wires d)%nat) W ->
  exists prob,
    estimate_probability d W = Ok prob
    /\ List.length prob = (2 ^ List.length W)%nat
    /\ forall j, (j < 2 ^ List.length W)%nat ->
         (nth j prob 0
          == inject_Z (Z.of_nat (count_rows m W (Z.of_nat j)))
             / inject_Z (Z.pos (shots d)))%Q
         /\ (count_rows m W (Z.of_nat j) = 0%nat -> nth j prob 0%Q = 0%Q).
Proof.
  intros Hs Hcols Hrows HW Hwires.
  unfold estimate_probability.
  assert (Hh : hstack W = Ok W) by (destruct W; [congruence|reflexivity]).
  rewrite Hh, Hs. cbn [bind]. unfold take_columns.
  assert (Hall : forallb (fun w => Nat.ltb w (n_cols m)) W = true).
  { apply forallb_forall. intros w Hw. rewrite Forall_forall in Hwires.
    apply Nat.ltb_lt. rewrite Hcols. apply Hwires, Hw. }
  rewrite Hall. cbn [bind]. unfold ravel_rows. cbn [rows].
  assert (Hbits : forall r, In r (rows m) ->
            Forall (fun b => b = 0 \/ b = 1) (map (fun w => nth w r 0) W)).
  { intros r Hr. rewrite Forall_forall in Hrows. destruct (Hrows r Hr) as [Hlen Hb].
    apply Forall_map, Forall_forall. intros w Hw.
    rewrite Forall_forall in Hb, Hwires. apply Hb, nth_In. rewrite Hlen. apply Hwires, Hw. }
  set (sel := fun r : list Z => map (fun w => nth w r 0) W).
  set (num := fun bits : list Z => fold_left (fun a b => 2 * a + b) bits 0).
  rewrite mapM_map_ok with (g := num).
  2:{ intros r' Hr'. apply in_map_iff in Hr'. destruct Hr' as (r & <- & Hr).
      unfold ravel_multi_index.
      replace (List.length W) with (List.length (map (fun w => nth w r 0) W))
        by apply length_map.
      apply ravel_from_bits, Hbits, Hr. }
  cbn [bind]. fold sel.
  set (indices := map num (map sel (rows m))).
  assert (Hidx : forall v, In v indices -> 0 <= v < Z.of_nat (2 ^ List.length W)).
  { intros v Hv. unfold indices in Hv. rewrite map_map in Hv.
    apply in_map_iff in Hv. destruct Hv as (r & <- & Hr).
    pose proof (fold_bits_range (sel r) 0 (Hbits r Hr)) as Hrange.
    assert (Hl : List.length (sel r) = List.length W) by apply length_map.
    rewrite Hl in Hrange. rewrite pow2_nat_Z. unfold num. cbv beta. lia. }
  assert (Hocc : forall v, occurrences v indices = count_rows m W v).
  { intros v. unfold indices, count_rows. rewrite map_map, occurrences_map.
    f_equal. apply filter_ext. intros r. unfold num, sel.
    rewrite <- columns_index_fold. reflexivity. }
  pose proof (unique_counts_spec indices) as Hu.
  destruct (unique_counts indices) as [values counts].
  destruct Hu as (Hnd & Hlen & Hin & Hcnt).
  set (f := fun c : nat => (inject_Z (Z.of_nat c) / inject_Z (Z.pos (shots d)))%Q).
  destruct (setitems_ok values (map f counts) (repeat 0%Q (2 ^ List.length W)) 0%Q)
    as (prob & Eprob & Hplen & Hset & Hkeep).
  { rewrite length_map. exact Hlen. }
  { apply Forall_forall. intros v Hv. rewrite repeat_length. apply Hidx, Hin, Hv. }
  { exact Hnd. }
  exists prob. split; [exact Eprob|]. split; [rewrite Hplen; apply repeat_length|].
  intros j Hj.
  destruct (in_dec Z.eq_dec (Z.of_nat j) values) as [Hjin|Hjout].
  - destruct (in_combine_exists values counts _ Hlen Hjin) as (c & Hc).
    pose proof (Hset _ _ (in_combine_map f _ _ _ _ Hc)) as Hnth.
    rewrite Nat2Z.id in Hnth.
    pose proof (Hcnt _ _ Hc) as Hcv. rewrite Hocc in Hcv.
    split.
    + rewrite Hnth. unfold f. rewrite Hcv. reflexivity.
    + intros Hzero. apply Hin, occurrences_pos in Hjin. rewrite Hocc in Hjin. lia.
  - rewrite Hkeep by exact Hjout.
    assert (Hz : nth j (repeat 0%Q (2 ^ List.length W)) 0%Q = 0%Q).
    { apply nth_repeat. }
    rewrite Hz. split; [|reflexivity].
    rewrite <- Hocc, occurrences_zero by (rewrite <- Hin; exact Hjout).
    reflexivity.
Qed.

End Estimate.

Lemma estimate_probability_counts_witness :
  let m := mkMatrix 2 [[0; 1]; [1; 1]; [0; 1]; [0; 0]] in
  let d := mkDevice 2 4 false (Some m) None (@nil Q) in
  exists prob,
    estimate_probability d [1; 0]%nat = Ok prob
    /\ List.length prob = 4%nat
    /\ forall j, (j < 4)%nat ->
         (nth j prob 0
          == inject_Z (Z.of_nat (count_rows m [1; 0]%nat (Z.of_nat j))) / inject_Z 4)%Q
         /\ (count_rows m [1; 0]%nat (Z.of_nat j) = 0%nat -> nth j prob 0%Q = 0%Q).
Proof.
  intros m d.
  apply (estimate_probability_counts d m [1; 0]%nat).
  - reflexivity.
  - reflexivity.
  - repeat first [ apply Forall_nil | apply Forall_cons | split | reflexivity
                 | left; reflexivity | right; reflexivity ].
  - discriminate.
  - repeat first [ apply Forall_nil | apply Forall_cons | cbn; lia ].
Defined.

(** ** Marginal probabilities *)

(** C1 at the wires [[2, 0, 1]]: in the basis state [001] wire 2 is [1] and
    the wires 0 and 1 are [0], which reads as index 4 (bits [100]) in the
    order of the wires; the marginal in that order has its mass there, and
    [marginal_prob] returns the mass at index 2. *)
Theorem marginal_prob_three_wires_mismatch :
  marginal_prob three_qubits state_001 (Some [2; 0; 1]%nat)
  = Ok [0; 0; 1; 0; 0; 0; 0; 0]%Q
  /\ (marginal_sum 3 state_001 [2; 0; 1]%nat 4 == 1)%Q
  /\ (marginal_sum 3 state_001 [2; 0; 1]%nat 2 == 0)%Q
  /\ ~ (nth 4 [0; 0; 1; 0; 0; 0; 0; 0]%Q 0 == marginal_sum 3 state_001 [2; 0; 1]%nat 4)%Q.
Proof.
  split; [reflexivity|]. split; [reflexivity|]. split; [reflexivity|].
  intros Hq. vm_compute in Hq. discriminate.
Qed.

(** On three wires, the entry of basis state [10] on the wires [[2, 0]] is
    the entry of basis state [01] on the wires [[0, 2]]. *)
Lemma marginal_prob_swap_two_of_three (p0 p1 p2 p3 p4 p5 p6 p7 : Q) :
  let p := [p0; p1; p2; p3; p4; p5; p6; p7] in
  exists u v,
    marginal_prob three_qubits p (Some [2; 0]%nat) = Ok u
    /\ marginal_prob three_qubits p (Some [0; 2]%nat) = Ok v
    /\ nth 2 u 0%Q = nth 1 v 0%Q
    /\ nth 2 u 0%Q = sumQ [p1; p3].
Proof.
  intros p. eexists. eexists.
  split; [reflexivity|]. split; [reflexivity|]. split; reflexivity.
Qed.

(** ** Sums along the axes of an array *)

Lemma size_of_cons (d : nat) (shp : list nat) :
  size_of (d :: shp) = (d * size_of shp)%nat.
Proof. reflexivity. Qed.

Lemma flat_from_acc (shp idx : list nat) (acc : nat) :
  List.length shp = List.length idx ->
  flat_from acc shp idx = (acc * size_of shp + flat shp idx)%nat.
Proof.
  revert idx acc. induction shp as [|d shp IH]; intros [|i idx] acc Hlen; try discriminate.
  - cbn. lia.
  - unfold flat. cbn [flat_from]. rewrite size_of_cons.
    rewrite (IH idx (acc * d + i)%nat), (IH idx (0 * d + i)%nat) by (cbn in Hlen; lia).
    unfold flat. ring.
Qed.

Lemma valid_length (shp idx : list nat) : valid shp idx -> List.length shp = List.length idx.
Proof. induction 1; cbn; congruence. Qed.

Lemma flat_cons (d i : nat) (shp idx : list nat) :
  List.length shp = List.length idx ->
  flat (d :: shp) (i :: idx) = (i * size_of shp + flat shp idx)%nat.
Proof.
  intros Hlen. unfold flat at 1. cbn [flat_from].
  rewrite flat_from_acc by assumption. ring.
Qed.

Lemma flat_lt (shp idx : list nat) : valid shp idx -> (flat shp idx < size_of shp)%nat.
Proof.
  induction 1 as [|d i shp idx Hi Hv IH]; [cbn; lia|].
  rewrite flat_cons by (apply valid_length; assumption).
  rewrite size_of_cons. nia.
Qed.

Lemma flat_app (s1 s2 i1 i2 : list nat) :
  List.length s1 = List.length i1 ->
  List.length s2 = List.length i2 ->
  flat (s1 ++ s2) (i1 ++ i2) = (flat s1 i1 * size_of s2 + flat s2 i2)%nat.
Proof.
  intros H1 H2. unfold flat at 1 2. generalize 0%nat.
  revert i1 H1. induction s1 as [|d s1 IH]; intros [|i i1] H1 acc; try discriminate.
  - cbn [app flat_from]. apply flat_from_acc. exact H2.
  - cbn [app flat_from]. apply IH. cbn in H1. lia.
Qed.

Lemma size_of_app (s1 s2 : list nat) : size_of (s1 ++ s2) = (size_of s1 * size_of s2)%nat.
Proof.
  unfold size_of. induction s1 as [|d s1 IH]; cbn [app fold_right]; [lia|].
  rewrite IH. ring.
Qed.

(** An array written block after block, read at a row and a column. *)
Lemma nth_blocks {A : Type} (g : nat -> nat -> A) (inner outer o i : nat) (d : A) :
  (o < outer)%nat -> (i < inner)%nat ->
  nth (o * inner + i) (flat_map (fun o => map (g o) (seq 0 inner)) (seq 0 outer)) d
  = g o i.
Proof.
  intros Ho Hi.
  assert (Hgen : forall start,
            nth (o * inner + i)
                (flat_map (fun o => map (g o) (seq 0 inner)) (seq start outer)) d
            = g (start + o)%nat i).
  { revert o Ho. induction outer as [|outer IH]; intros o Ho start; [lia|].
    cbn [seq flat_map]. destruct o as [|o].
    - rewrite app_nth1 by (rewrite length_map, length_seq; exact Hi).
      cbn [Nat.mul Nat.add]. rewrite Nat.add_0_r.
      rewrite (nth_indep _ d (g start 0%nat)) by (rewrite length_map, length_seq; exact Hi).
      rewrite map_nth, seq_nth by exact Hi. reflexivity.
    - rewrite app_nth2 by (rewrite length_map, length_seq; lia).
      rewrite length_map, length_seq.
      replace (S o * inner + i - inner)%nat with (o * inner + i)%nat by lia.
      rewrite IH by lia. f_equal. lia. }
  apply Hgen.
Qed.

Lemma length_blocks {A : Type} (g : nat -> nat -> A) (inner outer : nat) :
  List.length (flat_map (fun o => map (g o) (seq 0 inner)) (seq 0 outer))
  = (outer * inner)%nat.
Proof.
  assert (Hgen : forall start,
            List.length (flat_map (fun o => map (g o) (seq 0 inner)) (seq start outer))
            = (outer * inner)%nat).
  { induction outer as [|outer IH]; intros start; [reflexivity|].
    cbn [seq flat_map]. rewrite length_app, length_map, length_seq, IH. lia. }
  apply Hgen.
Qed.

(** The sum along an axis, entry by entry. *)
Lemma sum_axis_entry (t : ndarray) (s1 s2 i1 i2 : list nat) (d : nat) :
  shape t = s1 ++ d :: s2 ->
  valid s1 i1 -> valid s2 i2 ->
  let t' := sum_axis t (List.length s1) in
  shape t' = s1 ++ 1%nat :: s2
  /\ List.length (data t') = size_of (shape t')
  /\ entry t' (i1 ++ 0%nat :: i2)
     = sumQ (map (fun x => entry t (i1 ++ x :: i2)) (seq 0 d)).
Proof.
  intros Hshape Hv1 Hv2 t'.
  assert (Hf : firstn (List.length s1) (shape t) = s1).
  { rewrite Hshape, firstn_app, Nat.sub_diag, firstn_all. cbn. apply app_nil_r. }
  assert (Hn : nth (List.length s1) (shape t) 1%nat = d).
  { rewrite Hshape, app_nth2, Nat.sub_diag by lia. reflexivity. }
  assert (Hk : skipn (S (List.length s1)) (shape t) = s2).
  { rewrite Hshape. change (d :: s2) with ([d] ++ s2). rewrite app_assoc.
    replace (S (List.length s1)) with (List.length (s1 ++ [d]))
      by (rewrite length_app; cbn; lia).
    rewrite skipn_app, skipn_all, Nat.sub_diag. reflexivity. }
  pose proof (valid_length _ _ Hv1) as Hl1.
  pose proof (valid_length _ _ Hv2) as Hl2.
  pose proof (flat_lt _ _ Hv1) as Ho.
  pose proof (flat_lt _ _ Hv2) as Hi.
  unfold t', sum_axis. rewrite Hf, Hn, Hk. cbn [shape data].
  split; [reflexivity|]. split.
  - rewrite length_blocks, size_of_app, size_of_cons. lia.
  - unfold entry. cbn [shape data]. rewrite Hshape.
    rewrite flat_app by (cbn; lia).
    rewrite flat_cons by assumption.
    rewrite size_of_cons.
    replace (flat s1 i1 * (1 * size_of s2) + (0 * size_of s2 + flat s2 i2))%nat
      with (flat s1 i1 * size_of s2 + flat s2 i2)%nat by lia.
    rewrite nth_blocks by assumption.
    f_equal. apply map_ext. intros x. f_equal.
    rewrite flat_app by (cbn; lia).
    rewrite flat_cons by assumption.
    rewrite size_of_cons. ring.
Qed.

(** ** Bits of basis states *)

Lemma bit_of_lt (n s a : nat) : (bit_of n s a < 2)%nat.
Proof. unfold bit_of. apply Nat.mod_upper_bound. lia. Qed.

Lemma bit_of_S (n s a : nat) :
  (a < n)%nat -> bit_of (S n) s a = bit_of n (s / 2) a.
Proof.
  intros Ha. unfold bit_of.
  replace (S n - 1 - a)%nat with (S (n - 1 - a)) by lia.
  rewrite Nat.pow_succ_r', Nat.Div0.div_div. reflexivity.
Qed.

Lemma bit_of_last (n s : nat) : bit_of (S n) s n = (s mod 2)%nat.
Proof.
  unfold bit_of. replace (S n - 1 - n)%nat with 0%nat by lia.
  cbn [Nat.pow]. rewrite Nat.div_1_r. reflexivity.
Qed.

(** A basis state is determined by its bits. *)
Lemma bits_inj (n s s' : nat) :
  (s < 2 ^ n)%nat -> (s' < 2 ^ n)%nat ->
  (forall a, (a < n)%nat -> bit_of n s a = bit_of n s' a) -> s = s'.
Proof.
  revert s s'. induction n as [|n IH]; intros s s' Hs Hs' Hbits.
  - cbn in Hs, Hs'. lia.
  - rewrite Nat.pow_succ_r' in Hs, Hs'.
    assert (Hhalf : (s / 2 = s' / 2)%nat).
    { apply IH.
      - apply Nat.Div0.div_lt_upper_bound. lia.
      - apply Nat.Div0.div_lt_upper_bound. lia.
      - intros a Ha. rewrite <- !bit_of_S by exact Ha. apply Hbits. lia. }
    assert (Hlast : (s mod 2 = s' mod 2)%nat).
    { rewrite <- !bit_of_last with (n := n). apply Hbits. lia. }
    rewrite (Nat.div_mod_eq s 2), (Nat.div_mod_eq s' 2). congruence.
Qed.

Lemma size_of_repeat2 (n : nat) : size_of (repeat 2%nat n) = (2 ^ n)%nat.
Proof.
  induction n as [|n IH]; [reflexivity|].
  cbn [repeat]. rewrite size_of_cons, IH. reflexivity.
Qed.

Lemma valid_snoc (shp idx : list nat) (d : nat) :
  valid (shp ++ [d]) idx ->
  exists idx' x, idx = idx' ++ [x] /\ valid shp idx' /\ (x < d)%nat.
Proof.
  intros Hv. apply Forall2_app_inv_l in Hv.
  destruct Hv as (idx' & l2 & Hv1 & Hv2 & ->).
  inversion Hv2 as [|? x ? ? Hx Hnil]; subst. inversion Hnil; subst.
  exists idx', x. auto.
Qed.

Lemma valid_cons_inv (shp idx : list nat) (d : nat) :
  valid (d :: shp) idx ->
  exists x idx', idx = x :: idx' /\ (x < d)%nat /\ valid shp idx'.
Proof.
  intros Hv. inversion Hv as [|? x ? idx' Hx Hv']; subst.
  exists x, idx'. auto.
Qed.

(** The bits of the offset of a multi-index of bits are its entries. *)
Lemma bits_flat (n : nat) (idx : list nat) (a : nat) :
  valid (repeat 2%nat n) idx -> (a < n)%nat ->
  bit_of n (flat (repeat 2%nat n) idx) a = nth a idx 0%nat.
Proof.
  revert idx a. induction n as [|n IH]; intros idx a Hv Ha; [lia|].
  change (repeat 2%nat (S n)) with (2%nat :: repeat 2%nat n) in *.
  rewrite repeat_cons in *.
  destruct (valid_snoc _ _ _ Hv) as (idx' & x & -> & Hv' & Hx).
  pose proof (valid_length _ _ Hv') as Hlen. rewrite repeat_length in Hlen.
  rewrite flat_app by (rewrite ?repeat_length; cbn; lia).
  replace (flat [2%nat] [x]) with x by (unfold flat; cbn; lia).
  rewrite size_of_cons. cbn [size_of fold_right].
  destruct (Nat.eq_dec a n) as [->|Hne].
  - rewrite bit_of_last, app_nth2, <- Hlen, Nat.sub_diag by lia. cbn [nth].
    replace (flat (repeat 2%nat n) idx' * (2 * 1) + x)%nat
      with (x + flat (repeat 2%nat n) idx' * 2)%nat by lia.
    rewrite Nat.Div0.mod_add. apply Nat.mod_small. exact Hx.
  - rewrite bit_of_S, app_nth1 by lia.
    replace (flat (repeat 2%nat n) idx' * (2 * 1) + x)%nat
      with (x + flat (repeat 2%nat n) idx' * 2)%nat by lia.
    rewrite Nat.div_add, Nat.div_small by lia. cbn [Nat.add].
    apply IH; [exact Hv'|lia].
Qed.

(** ** Sums over basis states *)

Lemma sumQ_single (c : nat -> bool) (g : nat -> Q) (s0 start len : nat) :
  (forall s, (start <= s < start + len)%nat -> c s = Nat.eqb s s0) ->
  (sumQ (map (fun s => if c s then g s else 0) (seq start len))
   == if ((start <=? s0) && (s0 <? start + len))%nat then g s0 else 0)%Q.
Proof.
  revert start. induction len as [|len IH]; intros start Hc.
  - cbn [seq map sumQ fold_right].
    destruct (Nat.leb_spec start s0), (Nat.ltb_spec s0 (start + 0)); cbn; try reflexivity; lia.
  - cbn [seq map sumQ fold_right]. fold (sumQ (map (fun s => if c s then g s else 0%Q) (seq (S start) len))).
    rewrite IH by (intros s Hs; apply Hc; lia).
    rewrite Hc by lia.
    destruct (Nat.eqb_spec start s0) as [->|Hne].
    + destruct (Nat.leb_spec (S s0) s0); [lia|].
      destruct (Nat.leb_spec s0 s0); [|lia].
      destruct (Nat.ltb_spec s0 (s0 + S len)); [|lia].
      cbn [andb]. ring.
    + destruct (Nat.leb_spec (S start) s0), (Nat.leb_spec start s0),
        (Nat.ltb_spec s0 (S start + len)), (Nat.ltb_spec s0 (start + S len));
        cbn [andb]; try lia; ring.
Qed.

Lemma sum_where_single (n : nat) (p : list Q) (c : nat -> bool) (s0 : nat) :
  (s0 < 2 ^ n)%nat ->
  (forall s, (s < 2 ^ n)%nat -> c s = Nat.eqb s s0) ->
  (sum_where n p c == nth s0 p 0)%Q.
Proof.
  intros Hs0 Hc. unfold sum_where.
  rewrite (sumQ_single c (fun s => nth s p 0%Q) s0) by (intros s Hs; apply Hc; lia).
  destruct (Nat.ltb_spec s0 (0 + 2 ^ n)); [reflexivity|lia].
Qed.

(** A sum over basis states, split by the value of one bit. *)
Lemma sum_where_split (n : nat) (p : list Q) (c c0 c1 : nat -> bool) (a : nat) :
  (forall s, c0 s = Nat.eqb (bit_of n s a) 0 && c s) ->
  (forall s, c1 s = Nat.eqb (bit_of n s a) 1 && c s) ->
  (sumQ (map (fun x => sum_where n p (if Nat.eqb x 0 then c0 else c1)) (seq 0 2))
   == sum_where n p c)%Q.
Proof.
  intros H0 H1. unfold sum_where, sumQ. cbn [seq map fold_right Nat.eqb].
  induction (seq 0 (2 ^ n)) as [|s l IH]; cbn [map fold_right].
  - ring.
  - rewrite <- IH, H0, H1. pose proof (bit_of_lt n s a) as Hb.
    destruct (bit_of n s a) as [|[|b]]; [| |lia]; cbn [Nat.eqb andb];
      destruct (c s); ring.
Qed.

(** ** The invariant of the sums over the inactive wires *)

Lemma agree_all (n : nat) (idx : list nat) (s : nat) :
  valid (repeat 2%nat n) idx -> (s < 2 ^ n)%nat ->
  agree n [] idx s = Nat.eqb s (flat (repeat 2%nat n) idx).
Proof.
  intros Hv Hs.
  pose proof (flat_lt _ _ Hv) as Hf. rewrite size_of_repeat2 in Hf.
  apply eq_true_iff_eq. unfold agree. rewrite forallb_forall, Nat.eqb_eq. split.
  - intros Hall. apply (bits_inj n); [exact Hs|exact Hf|].
    intros a Ha. rewrite bits_flat by assumption.
    specialize (Hall a). cbn in Hall. apply Nat.eqb_eq, Hall, in_seq. lia.
  - intros -> a Ha. apply in_seq in Ha. cbn [mem existsb orb].
    apply Nat.eqb_eq, bits_flat; [exact Hv|lia].
Qed.

(** The reshaped distribution: no axis summed over yet. *)
Lemma reshape_summed (n : nat) (p : list Q) :
  List.length p = (2 ^ n)%nat ->
  reshape p (repeat 2%nat n) = Ok (mkArray (repeat 2%nat n) p)
  /\ summed n p [] (mkArray (repeat 2%nat n) p).
Proof.
  intros Hlen. split.
  - unfold reshape. rewrite size_of_repeat2, Hlen, Nat.eqb_refl. reflexivity.
  - unfold summed. cbn [shape data]. repeat split.
    + apply repeat_length.
    + intros a Ha. cbn [mem existsb]. apply nth_repeat_lt. exact Ha.
    + rewrite size_of_repeat2. exact Hlen.
    + intros idx Hv. unfold entry. cbn [shape data].
      pose proof (flat_lt _ _ Hv) as Hf. rewrite size_of_repeat2 in Hf.
      symmetry. apply sum_where_single; [exact Hf|].
      intros s Hs. apply agree_all; assumption.
Qed.

Lemma nth_middle_other {A : Type} (l1 l2 : list A) (x y d : A) (b : nat) :
  b <> List.length l1 -> nth b (l1 ++ x :: l2) d = nth b (l1 ++ y :: l2) d.
Proof.
  intros Hb. destruct (Nat.lt_ge_cases b (List.length l1)) as [Hlt|Hge].
  - rewrite !app_nth1 by exact Hlt. reflexivity.
  - rewrite !app_nth2 by exact Hge.
    destruct (b - List.length l1)%nat as [|k] eqn:E; [lia|reflexivity].
Qed.

Lemma agree_upd (n : nat) (L i1 i2 : list nat) (x s : nat) :
  mem (List.length i1) L = false ->
  agree n L (i1 ++ x :: i2) s
  = Nat.eqb (bit_of n s (List.length i1)) x
    && agree n (List.length i1 :: L) (i1 ++ 0%nat :: i2) s
  \/ (n <= List.length i1)%nat.
Proof.
  intros Hmem. destruct (Nat.lt_ge_cases (List.length i1) n) as [Ha|Ha]; [left|right; exact Ha].
  apply eq_true_iff_eq. unfold agree.
  rewrite andb_true_iff, !forallb_forall, Nat.eqb_eq. split.
  - intros Hall. split.
    + specialize (Hall (List.length i1)). rewrite Hmem, nth_middle in Hall.
      apply Nat.eqb_eq, Hall, in_seq. lia.
    + intros b Hb. cbn [mem existsb].
      destruct (Nat.eqb_spec b (List.length i1)) as [->|Hne]; [reflexivity|].
      cbn [orb]. rewrite (nth_middle_other i1 i2 0%nat x) by exact Hne.
      apply Hall, Hb.
  - intros [Hbit Hall] b Hb.
    destruct (Nat.eq_dec b (List.length i1)) as [->|Hne].
    + rewrite nth_middle, Hbit, Nat.eqb_refl. apply orb_true_r.
    + specialize (Hall b Hb). cbn [mem existsb] in Hall.
      destruct (Nat.eqb_spec b (List.length i1)) as [|_]; [contradiction|].
      cbn [orb] in Hall. rewrite (nth_middle_other i1 i2 x 0%nat) by exact Hne.
      exact Hall.
Qed.

(** One more axis summed over. *)
Lemma sum_axis_summed (n : nat) (p : list Q) (L : list nat) (t : ndarray) (a : nat) :
  summed n p L t -> (a < n)%nat -> mem a L = false ->
  summed n p (a :: L) (sum_axis t a).
Proof.
  intros (Hlen & Hshape & Hdata & Hentry) Ha Hmem.
  destruct (nth_split (shape t) 0%nat (n := a)) as (s1 & s2 & Hsplit & Hs1); [lia|].
  rewrite Hshape, Hmem in Hsplit by exact Ha.
  assert (Hlen2 : List.length s2 = (n - a - 1)%nat).
  { rewrite Hsplit, length_app in Hlen. cbn in Hlen. lia. }
  subst a.
  assert (Hsh' : shape (sum_axis t (List.length s1)) = s1 ++ 1%nat :: s2).
  { unfold sum_axis. cbn [shape]. rewrite Hsplit.
    rewrite firstn_app, Nat.sub_diag, firstn_all. cbn [firstn]. rewrite app_nil_r.
    f_equal. f_equal.
    change (2%nat :: s2) with ([2%nat] ++ s2). rewrite app_assoc.
    replace (S (List.length s1)) with (List.length (s1 ++ [2%nat]))
      by (rewrite length_app; cbn; lia).
    rewrite skipn_app, skipn_all, Nat.sub_diag. reflexivity. }
  unfold summed. rewrite Hsh'. repeat split.
  - rewrite length_app. cbn [List.length]. lia.
  - intros b Hb. cbn [mem existsb].
    destruct (Nat.eqb_spec b (List.length s1)) as [->|Hne].
    + apply nth_middle.
    + cbn [orb]. rewrite (nth_middle_other s1 s2 1%nat 2%nat) by exact Hne.
      rewrite <- Hsplit. apply Hshape, Hb.
  - unfold sum_axis. cbn [data]. rewrite Hsplit.
    rewrite firstn_app, Nat.sub_diag, firstn_all. cbn [firstn]. rewrite app_nil_r.
    rewrite app_nth2, Nat.sub_diag by lia. cbn [nth].
    change (2%nat :: s2) with ([2%nat] ++ s2). rewrite app_assoc.
    replace (S (List.length s1)) with (List.length (s1 ++ [2%nat]))
      by (rewrite length_app; cbn; lia).
    rewrite skipn_app, skipn_all, Nat.sub_diag. cbn [app skipn].
    rewrite length_blocks, size_of_app, size_of_cons. lia.
  - intros idx Hv. apply Forall2_app_inv_l in Hv.
    destruct Hv as (i1 & l2 & Hv1 & Hv2 & ->).
    destruct (valid_cons_inv _ _ _ Hv2) as (x & i2 & -> & Hx & Hv2').
    assert (x = 0%nat) by lia. subst x.
    destruct (sum_axis_entry t s1 s2 i1 i2 2 Hsplit Hv1 Hv2') as (_ & _ & He).
    rewrite He.
    pose proof (valid_length _ _ Hv1) as Hl1.
    assert (Hstep : forall x, (x < 2)%nat ->
              (entry t (i1 ++ x :: i2)
               == sum_where n p (agree n L (i1 ++ x :: i2)))%Q).
    { intros x Hx'. apply Hentry. rewrite Hsplit.
      apply Forall2_app; [exact Hv1|]. constructor; assumption. }
    cbn [seq map sumQ fold_right].
    rewrite (Hstep 0%nat), (Hstep 1%nat) by lia.
    rewrite <- (sum_where_split n p (agree n (List.length s1 :: L) (i1 ++ 0%nat :: i2))
                  (agree n L (i1 ++ 0%nat :: i2)) (agree n L (i1 ++ 1%nat :: i2))
                  (List.length s1)).
    + cbn [seq map sumQ fold_right Nat.eqb]. reflexivity.
    + intros s. rewrite Hl1. destruct (agree_upd n L i1 i2 0 s) as [E|E].
      * rewrite <- Hl1. exact Hmem.
      * exact E.
      * lia.
    + intros s. rewrite Hl1. destruct (agree_upd n L i1 i2 1 s) as [E|E].
      * rewrite <- Hl1. exact Hmem.
      * exact E.
      * lia.
Qed.

(** All the axes of a list summed over, one after the other. *)
Lemma apply_over_axes_summed (n : nat) (p : list Q) (axes L : list nat) (t : ndarray) :
  summed n p L t ->
  Forall (fun a => (a < n)%nat) axes ->
  NoDup axes ->
  (forall a, In a axes -> mem a L = false) ->
  exists L',
    summed n p L' (apply_over_axes_sum t axes)
    /\ forall a, mem a L' = mem a L || mem a axes.
Proof.
  unfold apply_over_axes_sum. revert L t.
  induction axes as [|a axes IH]; intros L t Ht Hlt Hnd Hnot.
  - exists L. split; [exact Ht|]. intros a. cbn. rewrite orb_false_r. reflexivity.
  - inversion Hlt as [|? ? Ha Hlt']; subst. inversion Hnd as [|? ? Hna Hnd']; subst.
    destruct (IH (a :: L) (sum_axis t a)) as (L' & HL' & Hmem').
    + apply sum_axis_summed; [exact Ht|exact Ha|]. apply Hnot. left. reflexivity.
    + exact Hlt'.
    + exact Hnd'.
    + intros b Hb. cbn [mem existsb].
      destruct (Nat.eqb_spec b a) as [->|_]; [contradiction|].
      apply Hnot. right. exact Hb.
    + exists L'. split; [exact HL'|].
      intros b. rewrite Hmem'. cbn [mem existsb]. fold (mem b L). fold (mem b axes).
      destruct (Nat.eqb b a), (mem b L), (mem b axes); reflexivity.
Qed.

(** ** Ranks and the squeezed array *)

Lemma mem_In (a : nat) (l : list nat) : mem a l = true <-> In a l.
Proof.
  unfold mem. rewrite existsb_exists. split.
  - intros (x & Hx & E). apply Nat.eqb_eq in E. subst. exact Hx.
  - intros Hin. exists a. split; [exact Hin|apply Nat.eqb_refl].
Qed.

Lemma rank_S (W : list nat) (a : nat) :
  rank W (S a) = (rank W a + if mem a W then 1 else 0)%nat.
Proof.
  unfold rank. rewrite seq_S, filter_app, length_app. cbn [filter Nat.add].
  destruct (mem a W); reflexivity.
Qed.

Lemma rank_mono (W : list nat) (a b : nat) : (a <= b)%nat -> (rank W a <= rank W b)%nat.
Proof.
  induction 1 as [|b Hle IH]; [lia|]. rewrite rank_S. lia.
Qed.

Lemma rank_lt (W : list nat) (a n : nat) :
  (a < n)%nat -> mem a W = true -> (rank W a < rank W n)%nat.
Proof.
  intros Ha Hm. pose proof (rank_mono W (S a) n Ha) as Hle.
  rewrite rank_S, Hm in Hle. lia.
Qed.

(** The wires of [W], without repetition and all below [n], are as many as
    its rank at [n]. *)
Lemma rank_full (W : list nat) (n : nat) :
  NoDup W -> Forall (fun w => (w < n)%nat) W -> rank W n = List.length W.
Proof.
  intros Hnd Hlt. unfold rank. apply Permutation_length, NoDup_Permutation.
  - apply NoDup_filter, seq_NoDup.
  - exact Hnd.
  - intros a. rewrite filter_In, in_seq, mem_In. rewrite Forall_forall in Hlt.
    split; [tauto|]. intros Hin. specialize (Hlt a Hin). split; [lia|exact Hin].
Qed.

Lemma flat_snoc (shp idx : list nat) (d x : nat) :
  List.length shp = List.length idx ->
  flat (shp ++ [d]) (idx ++ [x]) = (flat shp idx * d + x)%nat.
Proof.
  intros Hlen. rewrite flat_app by (cbn; auto).
  rewrite size_of_cons. unfold flat at 2. cbn. lia.
Qed.

Lemma firstn_S_nth {A : Type} (l : list A) (r : nat) (d : A) :
  (r < List.length l)%nat -> firstn (S r) l = firstn r l ++ [nth r l d].
Proof.
  revert r. induction l as [|x l IH]; intros r Hr; [cbn in Hr; lia|].
  destruct r as [|r]; [reflexivity|].
  cbn [firstn nth app]. f_equal. apply IH. cbn in Hr. lia.
Qed.

(** The offset in the array with the summed axes is the offset among the
    requested wires alone. *)
Lemma flat_spread (W bits : list nat) (m : nat) :
  (rank W m <= List.length bits)%nat ->
  flat (map (fun a => if mem a W then 2%nat else 1%nat) (seq 0 m))
       (map (fun a => if mem a W then nth (rank W a) bits 0%nat else 0%nat) (seq 0 m))
  = flat (repeat 2%nat (rank W m)) (firstn (rank W m) bits).
Proof.
  induction m as [|m IH]; intros Hr; [reflexivity|].
  rewrite rank_S in Hr. rewrite seq_S, !map_app. cbn [map Nat.add].
  rewrite flat_snoc by (rewrite !length_map; reflexivity).
  rewrite IH by lia. rewrite rank_S.
  destruct (mem m W).
  - rewrite Nat.add_1_r. cbn [repeat]. rewrite repeat_cons.
    rewrite (firstn_S_nth bits (rank W m) 0%nat) by lia.
    rewrite flat_snoc; [reflexivity|].
    rewrite repeat_length, length_firstn. lia.
  - rewrite !Nat.add_0_r, Nat.mul_1_r. reflexivity.
Qed.

Lemma Forall2_pointwise {X Y : Type} (R : X -> Y -> Prop) (dx : X) (dy : Y)
    (l1 : list X) (l2 : list Y) :
  List.length l1 = List.length l2 ->
  (forall i, (i < List.length l1)%nat -> R (nth i l1 dx) (nth i l2 dy)) ->
  Forall2 R l1 l2.
Proof.
  revert l2. induction l1 as [|x l1 IH]; intros [|y l2] Hlen Hnth; try discriminate.
  - constructor.
  - constructor.
    + apply (Hnth 0%nat). cbn. lia.
    + apply IH; [cbn in Hlen; lia|].
      intros i Hi. apply (Hnth (S i)). cbn. lia.
Qed.

Lemma nth_map_seq {A : Type} (f : nat -> A) (n a : nat) (d : A) :
  (a < n)%nat -> nth a (map f (seq 0 n)) d = f a.
Proof.
  intros Ha. rewrite (nth_indep _ d (f 0%nat)) by (rewrite length_map, length_seq; exact Ha).
  rewrite map_nth, seq_nth by exact Ha. reflexivity.
Qed.

(** ** Sorting indices *)

Lemma in_insert_by (key : nat -> nat) (i x : nat) (l : list nat) :
  In x (insert_by key i l) <-> x = i \/ In x l.
Proof.
  induction l as [|j l IH]; cbn [insert_by].
  - cbn. intuition.
  - destruct (Nat.leb (key i) (key j)); cbn [In]; [intuition|]. rewrite IH. intuition.
Qed.

Lemma length_insert_by (key : nat -> nat) (i : nat) (l : list nat) :
  List.length (insert_by key i l) = S (List.length l).
Proof.
  induction l as [|j l IH]; [reflexivity|].
  cbn [insert_by]. destruct (Nat.leb (key i) (key j)); cbn [List.length]; [|rewrite IH]; reflexivity.
Qed.

Lemma argsort_spec (a : list nat) :
  List.length (argsort a) = List.length a
  /\ forall x, In x (argsort a) <-> (x < List.length a)%nat.
Proof.
  unfold argsort. set (key := fun i => nth i a 0%nat).
  assert (Hgen : forall l,
            List.length (fold_right (insert_by key) [] l) = List.length l
            /\ forall x, In x (fold_right (insert_by key) [] l) <-> In x l).
  { induction l as [|i l [IHl IHi]]; [split; [reflexivity|tauto]|].
    cbn [fold_right]. split.
    - rewrite length_insert_by, IHl. reflexivity.
    - intros x. rewrite in_insert_by, IHi. cbn. intuition. }
  destruct (Hgen (seq 0 (List.length a))) as [Hl Hi]. split.
  - rewrite Hl. apply length_seq.
  - intros x. rewrite Hi, in_seq. lia.
Qed.

(** ** The rows of the basis states *)

Lemma product01_length (k : nat) : List.length (product01 k) = (2 ^ k)%nat.
Proof.
  induction k as [|k IH]; [reflexivity|].
  cbn [product01]. rewrite length_app, !length_map, IH. cbn [Nat.pow]. lia.
Qed.

(** Row [j] of the basis states is the multi-index of bits with offset [j]. *)
Lemma product01_row (k j : nat) :
  (j < 2 ^ k)%nat ->
  exists bits,
    nth j (product01 k) [] = map Z.of_nat bits
    /\ valid (repeat 2%nat k) bits
    /\ flat (repeat 2%nat k) bits = j.
Proof.
  revert j. induction k as [|k IH]; intros j Hj.
  - cbn in Hj. assert (j = 0%nat) by lia. subst. exists []. repeat split. constructor.
  - cbn [product01]. rewrite Nat.pow_succ_r' in Hj.
    destruct (Nat.lt_ge_cases j (2 ^ k)) as [Hlt|Hge].
    + destruct (IH j Hlt) as (bits & Hrow & Hv & Hf).
      exists (0%nat :: bits). repeat split.
      * rewrite app_nth1 by (rewrite length_map, product01_length; exact Hlt).
        rewrite (nth_indep _ [] (0 :: [])) by (rewrite length_map, product01_length; exact Hlt).
        rewrite map_nth, Hrow. reflexivity.
      * cbn [repeat]. constructor; [lia|exact Hv].
      * cbn [repeat]. rewrite flat_cons by (apply valid_length, Hv). lia.
    + destruct (IH (j - 2 ^ k)%nat) as (bits & Hrow & Hv & Hf); [lia|].
      exists (1%nat :: bits). repeat split.
      * rewrite app_nth2 by (rewrite length_map, product01_length; exact Hge).
        rewrite length_map, product01_length.
        rewrite (nth_indep _ [] (1 :: [])) by (rewrite length_map, product01_length; lia).
        rewrite map_nth, Hrow. reflexivity.
      * cbn [repeat]. constructor; [lia|exact Hv].
      * cbn [repeat]. rewrite flat_cons by (apply valid_length, Hv).
        rewrite size_of_repeat2. lia.
Qed.

Lemma fold_bits_flat (bits : list nat) :
  Z.to_nat (fold_left (fun a b => 2 * a + b) (map Z.of_nat bits) 0)
  = flat (repeat 2%nat (List.length bits)) bits.
Proof.
  unfold flat.
  assert (Hgen : forall acc,
            fold_left (fun a b => 2 * a + b) (map Z.of_nat bits) (Z.of_nat acc)
            = Z.of_nat (flat_from acc (repeat 2%nat (List.length bits)) bits)).
  { induction bits as [|b bits IH]; intros acc; [reflexivity|].
    cbn [map fold_left List.length repeat flat_from].
    rewrite <- IH. f_equal. lia. }
  change 0 with (Z.of_nat 0). rewrite Hgen. apply Nat2Z.id.
Qed.

Lemma squeezed_size (W : list nat) (m : nat) :
  size_of (map (fun a => if mem a W then 2%nat else 1%nat) (seq 0 m)) = (2 ^ rank W m)%nat.
Proof.
  induction m as [|m IH]; [reflexivity|].
  rewrite seq_S, map_app, size_of_app, IH, rank_S. cbn [map Nat.add].
  rewrite size_of_cons, Nat.pow_add_r. destruct (mem m W); reflexivity.
Qed.

Lemma product01_bits (k : nat) (r : list Z) :
  In r (product01 k) -> Forall (fun b => b = 0 \/ b = 1) r.
Proof.
  revert r. induction k as [|k IH]; intros r Hr.
  - destruct Hr as [<-|[]]. constructor.
  - cbn [product01] in Hr. apply in_app_or in Hr.
    destruct Hr as [Hr|Hr]; apply in_map_iff in Hr; destruct Hr as (r' & <- & Hr');
      constructor; auto.
Qed.

Lemma nth_map_default {X Y : Type} (f : X -> Y) (l : list X) (j : nat) (dx : X) (dy : Y) :
  (j < List.length l)%nat -> nth j (map f l) dy = f (nth j l dx).
Proof.
  intros Hj. rewrite (nth_indep _ dy (f dx)) by (rewrite length_map; exact Hj).
  apply map_nth.
Qed.

Lemma valid_bits_nth (k : nat) (bits : list nat) (c : nat) :
  valid (repeat 2%nat k) bits -> (nth c bits 0 < 2)%nat.
Proof.
  intros Hv. destruct (nth_in_or_default c bits 0%nat) as [Hin | Hd]; [|rewrite Hd; lia].
  assert (Hall : Forall (fun b => (b < 2)%nat) bits).
  { clear Hin. revert bits Hv. induction k as [|k IH]; intros bits Hv.
    - inversion Hv. constructor.
    - cbn [repeat] in Hv. destruct (valid_cons_inv _ _ _ Hv) as (x & idx' & -> & Hx & Hv').
      constructor; [exact Hx|apply IH, Hv']. }
  rewrite Forall_forall in Hall. apply Hall, Hin.
Qed.

Lemma sum_where_ext (n : nat) (p : list Q) (c c' : nat -> bool) :
  (forall s, c s = c' s) -> sum_where n p c = sum_where n p c'.
Proof.
  intros Hc. unfold sum_where. f_equal. apply map_ext. intros s. rewrite Hc. reflexivity.
Qed.

(** The basis states that agree with the spread bits of row [j], read
    through [argsort(argsort(W))], are those that [read_consistent] selects. *)
Lemma agree_spread (n : nat) (W L bits : list nat) (j s : nat) :
  Forall (fun w => (w < n)%nat) W ->
  rank W n = List.length W ->
  (forall a, (a < n)%nat -> mem a L = negb (mem a W)) ->
  valid (repeat 2%nat (List.length W)) bits ->
  flat (repeat 2%nat (List.length W)) bits = j ->
  agree n L (spread n W (map (fun c => nth c bits 0%nat) (argsort (argsort W)))) s
  = read_consistent n W j s.
Proof.
  intros Hlt Hk HL Hv Hj.
  destruct (argsort_spec W) as [Hl1 Hin1].
  destruct (argsort_spec (argsort W)) as [Hl2 Hin2]. rewrite Hl1 in Hl2, Hin2.
  set (order := argsort (argsort W)) in *.
  assert (Hread : forall r, (r < List.length W)%nat ->
            nth r (map (fun c => nth c bits 0%nat) order) 0%nat
            = bit_of (List.length W) j (nth r order 0%nat)).
  { intros r Hr. rewrite (nth_map_default _ _ _ 0%nat) by (rewrite Hl2; exact Hr).
    rewrite <- Hj, bits_flat; [reflexivity|exact Hv|].
    apply Hin2, nth_In. rewrite Hl2. exact Hr. }
  rewrite Forall_forall in Hlt.
  apply eq_true_iff_eq. unfold agree, read_consistent, spread.
  fold order. rewrite !forallb_forall. split.
  - intros Hall i Hi. apply in_seq in Hi.
    assert (HWi : In (nth i W 0%nat) W) by (apply nth_In; lia).
    pose proof (Hlt _ HWi) as Ha.
    specialize (Hall (nth i W 0%nat)).
    rewrite HL, (proj2 (mem_In _ _) HWi) in Hall by exact Ha. cbn [negb orb] in Hall.
    rewrite nth_map_seq, (proj2 (mem_In _ _) HWi) in Hall by exact Ha.
    rewrite Hread in Hall.
    + apply Hall, in_seq. lia.
    + rewrite <- Hk. apply rank_lt; [exact Ha|apply mem_In, HWi].
  - intros Hall a Ha. apply in_seq in Ha.
    rewrite HL by lia. rewrite nth_map_seq by lia.
    destruct (mem a W) eqn:Hm; [|reflexivity]. cbn [negb orb].
    apply mem_In in Hm. destruct (In_nth W a 0%nat Hm) as (i & Hi & HWi).
    specialize (Hall i). rewrite HWi in Hall.
    rewrite Hread.
    + apply Hall, in_seq. lia.
    + rewrite <- Hk. apply rank_lt; [lia|apply mem_In, Hm].
Qed.

Section Marginal.

Context {B : Type}.

(** The entries of [marginal_prob] for distinct device wires. *)
Lemma marginal_prob_reads (d : QubitDevice B) (p : list Q) (W : list nat) :
  List.length p = (2 ^ num_wires d)%nat ->
  W <> [] ->
  NoDup W ->
  Forall (fun w => (w < num_wires d)%nat) W ->
  exists v,
    marginal_prob d p (Some W) = Ok v
    /\ List.length v = (2 ^ List.length W)%nat
    /\ forall j, (j < 2 ^ List.length W)%nat ->
         (nth j v 0 == sum_where (num_wires d) p (read_consistent (num_wires d) W j))%Q.
Proof.
  intros Hp HW Hnd Hlt. set (n := num_wires d) in *. set (k := List.length W).
  unfold marginal_prob.
  assert (Hh : hstack W = Ok W) by (destruct W; [congruence|reflexivity]).
  rewrite Hh. cbn [bind]. fold n. fold k.
  destruct (reshape_summed n p Hp) as [-> H0]. cbn [bind].
  set (inactive := filter (fun a => negb (existsb (Nat.eqb a) W)) (seq 0 n)).
  destruct (apply_over_axes_summed n p inactive [] _ H0) as (L & HL & Hmem).
  { apply Forall_forall. intros a Ha. apply filter_In in Ha. destruct Ha as [Ha _].
    apply in_seq in Ha. lia. }
  { apply NoDup_filter, seq_NoDup. }
  { reflexivity. }
  set (t := apply_over_axes_sum (mkArray (repeat 2%nat n) p) inactive) in *.
  destruct HL as (Hlen & Hshape & Hdata & Hentry).
  assert (HmemL : forall a, (a < n)%nat -> mem a L = negb (mem a W)).
  { intros a Ha. rewrite Hmem. cbn [mem existsb orb]. fold (mem a inactive).
    apply eq_true_iff_eq. rewrite mem_In. unfold inactive. rewrite filter_In, in_seq.
    fold (mem a W). split; [tauto|]. intros E. split; [lia|exact E]. }
  assert (Hsh : shape t = map (fun a => if mem a W then 2%nat else 1%nat) (seq 0 n)).
  { apply (nth_ext _ _ 0%nat 0%nat).
    - rewrite length_map, length_seq. exact Hlen.
    - intros a Ha. rewrite Hlen in Ha. rewrite Hshape, nth_map_seq, HmemL by exact Ha.
      destruct (mem a W); reflexivity. }
  assert (Hk : rank W n = k) by (apply rank_full; assumption).
  assert (Hsize : List.length (data t) = (2 ^ k)%nat).
  { rewrite Hdata, Hsh, squeezed_size, Hk. reflexivity. }
  destruct (argsort_spec W) as [Hl1 Hin1].
  destruct (argsort_spec (argsort W)) as [Hl2 Hin2]. rewrite Hl1 in Hl2, Hin2.
  set (order := argsort (argsort W)) in *.
  set (g := fun r : list Z => fold_left (fun a b => 2 * a + b) (map (fun c => nth c r 0) order) 0).
  assert (Hsel : forall r, In r (product01 k) ->
            Forall (fun b => b = 0 \/ b = 1) (map (fun c => nth c r 0) order)).
  { intros r Hr. apply Forall_map, Forall_forall. intros c _.
    pose proof (product01_bits k r Hr) as Hb. rewrite Forall_forall in Hb.
    destruct (nth_in_or_default c r 0) as [Hin | Hd]; [apply Hb, Hin|left; exact Hd]. }
  rewrite mapM_map_ok with (g := g).
  2:{ intros r Hr. unfold ravel_multi_index.
      replace k with (List.length (map (fun c => nth c r 0) order))
        by (rewrite length_map; exact Hl2).
      apply ravel_from_bits, Hsel, Hr. }
  cbn [bind]. unfold getitems, flatten.
  assert (Hg : forall r, In r (product01 k) -> (Z.to_nat (g r) < 2 ^ k)%nat).
  { intros r Hr. pose proof (fold_bits_range _ 0 (Hsel r Hr)) as Hrange.
    rewrite length_map, Hl2 in Hrange. fold k in Hrange. unfold g.
    rewrite <- pow2_nat_Z in Hrange. lia. }
  rewrite mapM_map_ok with (g := fun i => nth (Z.to_nat i) (data t) 0%Q).
  2:{ intros i Hi. apply in_map_iff in Hi. destruct Hi as (r & <- & Hr).
      rewrite (nth_error_nth' _ 0%Q) by (rewrite Hsize; apply Hg, Hr). reflexivity. }
  eexists. split; [reflexivity|]. split.
  { rewrite !length_map. apply product01_length. }
  intros j Hj.
  rewrite (nth_map_default _ _ _ 0) by (rewrite length_map, product01_length; exact Hj).
  rewrite (nth_map_default _ _ _ []) by (rewrite product01_length; exact Hj).
  destruct (product01_row k j Hj) as (bits & Hrow & Hv & Hf).
  set (dn := map (fun c => nth c bits 0%nat) order).
  assert (Hdn : map (fun c => nth c (nth j (product01 k) []) 0) order = map Z.of_nat dn).
  { unfold dn. rewrite map_map, Hrow. apply map_ext. intros c.
    change 0 with (Z.of_nat 0). apply map_nth. }
  assert (Hldn : List.length dn = k) by (unfold dn; rewrite length_map; exact Hl2).
  unfold g. rewrite Hdn, fold_bits_flat, Hldn.
  assert (Hvalid : valid (shape t) (spread n W dn)).
  { apply (Forall2_pointwise _ 0%nat 0%nat).
    - unfold spread. rewrite length_map, length_seq. exact Hlen.
    - intros a Ha. rewrite Hlen in Ha. unfold spread.
      rewrite Hsh, !nth_map_seq by exact Ha.
      destruct (mem a W); [|lia]. unfold dn.
      destruct (Nat.lt_ge_cases (rank W a) (List.length order)) as [Hr|Hr].
      + rewrite (nth_map_default _ _ _ 0%nat) by exact Hr. apply (valid_bits_nth k), Hv.
      + rewrite nth_overflow by (rewrite length_map; exact Hr). lia. }
  assert (Hflat : flat (shape t) (spread n W dn) = flat (repeat 2%nat k) dn).
  { rewrite Hsh. unfold spread. rewrite flat_spread by lia.
    rewrite Hk, firstn_all2 by lia. reflexivity. }
  rewrite <- Hflat. fold (entry t (spread n W dn)).
  rewrite (Hentry _ Hvalid).
  rewrite (sum_where_ext n p _ (read_consistent n W j)); [reflexivity|].
  intros s. apply agree_spread; assumption.
Qed.

(** What [marginal_prob] returns for distinct device wires [W]: a vector of
    length [2^|W|] whose entry [j] is the sum of [p] over the basis states
    that have, on each wire of [W], the bit of [j] at position
    [argsort(argsort(W))[r]], with [r] the rank of the wire in [W]. *)
Theorem marginal_prob_entries (d : QubitDevice B) (p : list Q) (W : list nat) :
  List.length p = (2 ^ num_wires d)%nat ->
  W <> [] ->
  NoDup W ->
  Forall (fun w => (w < num_wires d)%nat) W ->
  exists v,
    marginal_prob d p (Some W) = Ok v
    /\ List.length v = (2 ^ List.length W)%nat
    /\ forall j, (j < 2 ^ List.length W)%nat ->
         (nth j v 0 == sum_where (num_wires d) p (read_consistent (num_wires d) W j))%Q.
Proof. apply marginal_prob_reads. Qed.

End Marginal.

(** ** The double argsort *)

Lemma insert_by_perm (key : nat -> nat) (i : nat) (l : list nat) :
  Permutation (insert_by key i l) (i :: l).
Proof.
  induction l as [|j l IH]; cbn [insert_by]; [reflexivity|].
  destruct (Nat.leb (key i) (key j)); [reflexivity|].
  rewrite IH. apply perm_swap.
Qed.

Lemma argsort_perm (a : list nat) : Permutation (argsort a) (seq 0 (List.length a)).
Proof.
  unfold argsort. induction (seq 0 (List.length a)) as [|i l IH]; [reflexivity|].
  cbn [fold_right]. rewrite insert_by_perm, IH. reflexivity.
Qed.

Lemma insert_by_sorted (key : nat -> nat) (i : nat) (l : list nat) :
  StronglySorted (fun x y => (key x <= key y)%nat) l ->
  StronglySorted (fun x y => (key x <= key y)%nat) (insert_by key i l).
Proof.
  induction 1 as [|j l Hs IH Hj]; cbn [insert_by].
  - repeat constructor.
  - destruct (Nat.leb_spec (key i) (key j)) as [Hij|Hij].
    + constructor; [constructor; assumption|].
      constructor; [exact Hij|].
      eapply Forall_impl; [|exact Hj]. cbn. intros; lia.
    + constructor; [exact IH|].
      apply Forall_forall. intros z Hz. apply in_insert_by in Hz.
      destruct Hz as [->|Hz]; [lia|].
      rewrite Forall_forall in Hj. apply Hj, Hz.
Qed.

(** The entries of an array are in order along its [argsort]. *)
Lemma argsort_sorted (a : list nat) :
  StronglySorted le (map (fun i => nth i a 0%nat) (argsort a)).
Proof.
  assert (Hs : StronglySorted (fun x y => (nth x a 0 <= nth y a 0)%nat) (argsort a)).
  { unfold argsort. induction (seq 0 (List.length a)) as [|i l IH]; [constructor|].
    cbn [fold_right]. apply (insert_by_sorted (fun i => nth i a 0%nat)), IH. }
  induction Hs as [|x l Hs IH Hx]; [constructor|].
  cbn [map]. constructor; [exact IH|]. apply Forall_map. exact Hx.
Qed.

Lemma sorted_le_lt (l : list nat) :
  StronglySorted le l -> NoDup l -> StronglySorted lt l.
Proof.
  induction 1 as [|x l Hs IH Hx]; intros Hnd; [constructor|].
  inversion Hnd as [|? ? Hnx Hnd']; subst.
  constructor; [apply IH, Hnd'|].
  rewrite Forall_forall in *. intros y Hy. specialize (Hx y Hy).
  assert (x <> y) by (intros ->; contradiction). lia.
Qed.

(** Two increasing lists with the same elements are equal. *)
Lemma sorted_lt_ext (l1 l2 : list nat) :
  StronglySorted lt l1 -> StronglySorted lt l2 ->
  (forall x, In x l1 <-> In x l2) -> l1 = l2.
Proof.
  intros H1. revert l2. induction H1 as [|x1 l1 Hs1 IH Hx1]; intros l2 H2 Hin.
  - destruct l2 as [|x2 l2]; [reflexivity|].
    exfalso. apply (Hin x2). left. reflexivity.
  - destruct H2 as [|x2 l2 Hs2 Hx2].
    + exfalso. apply (Hin x1). left. reflexivity.
    + rewrite Forall_forall in Hx1, Hx2.
      assert (Heq : x1 = x2).
      { destruct (proj1 (Hin x1) (or_introl eq_refl)) as [E|Hi]; [congruence|].
        destruct (proj2 (Hin x2) (or_introl eq_refl)) as [E|Hi']; [congruence|].
        apply Hx1 in Hi'. apply Hx2 in Hi. lia. }
      subst x2. f_equal. apply IH; [exact Hs2|].
      intros y. split; intros Hy.
      * destruct (proj1 (Hin y) (or_intror Hy)) as [E|Hi]; [|exact Hi].
        apply Hx1 in Hy. lia.
      * destruct (proj2 (Hin y) (or_intror Hy)) as [E|Hi]; [|exact Hi].
        apply Hx2 in Hy. lia.
Qed.

Lemma seq_sorted (a k : nat) : StronglySorted lt (seq a k).
Proof.
  revert a. induction k as [|k IH]; intros a; [constructor|].
  cbn [seq]. constructor; [apply IH|].
  apply Forall_forall. intros y Hy. apply in_seq in Hy. lia.
Qed.

Lemma map_nth_seq {A : Type} (l : list A) (d : A) :
  map (fun i => nth i l d) (seq 0 (List.length l)) = l.
Proof.
  apply (nth_ext _ _ d d).
  - rewrite length_map, length_seq. reflexivity.
  - intros i Hi. rewrite length_map, length_seq in Hi.
    apply (nth_map_seq (fun i => nth i l d)). exact Hi.
Qed.

(** The [argsort] of an [argsort] is its inverse. *)
Lemma argsort_argsort_inv (a : list nat) :
  map (fun c => nth c (argsort a) 0%nat) (argsort (argsort a)) = seq 0 (List.length a).
Proof.
  destruct (argsort_spec a) as [Hl _].
  assert (Hperm : Permutation (map (fun c => nth c (argsort a) 0%nat) (argsort (argsort a)))
                              (seq 0 (List.length a))).
  { rewrite (Permutation_map _ (argsort_perm (argsort a))), map_nth_seq.
    apply argsort_perm. }
  apply sorted_lt_ext.
  - apply sorted_le_lt; [apply argsort_sorted|].
    apply (Permutation_NoDup (Permutation_sym Hperm)), seq_NoDup.
  - apply seq_sorted.
  - intros x. split; apply Permutation_in; [exact Hperm|apply Permutation_sym, Hperm].
Qed.

(** The wires along their [argsort]: the same wires, in increasing order. *)
Lemma argsort_values (W : list nat) :
  NoDup W ->
  StronglySorted lt (map (fun i => nth i W 0%nat) (argsort W))
  /\ forall x, In x (map (fun i => nth i W 0%nat) (argsort W)) <-> In x W.
Proof.
  intros Hnd.
  assert (Hperm : Permutation (map (fun i => nth i W 0%nat) (argsort W)) W).
  { rewrite (Permutation_map _ (argsort_perm W)), map_nth_seq. reflexivity. }
  split.
  - apply sorted_le_lt; [apply argsort_sorted|].
    apply (Permutation_NoDup (Permutation_sym Hperm)), Hnd.
  - intros x. split; apply Permutation_in; [exact Hperm|apply Permutation_sym, Hperm].
Qed.

Lemma sorted_lt_NoDup_nat (l : list nat) : StronglySorted lt l -> NoDup l.
Proof.
  induction 1 as [|x l Hs IH Hx]; constructor; [|exact IH].
  intros Hin. rewrite Forall_forall in Hx. apply Hx in Hin. lia.
Qed.

Lemma sorted_lt_firstn (l : list nat) (x b : nat) :
  StronglySorted lt l -> (x < List.length l)%nat ->
  In b (firstn x l) <-> In b l /\ (b < nth x l 0)%nat.
Proof.
  intros Hs. revert x. induction Hs as [|y l Hs IH Hy]; intros x Hx; [cbn in Hx; lia|].
  rewrite Forall_forall in Hy. destruct x as [|x]; cbn [firstn nth In].
  - split; [tauto|]. intros [[->|Hin] Hlt]; [lia|]. apply Hy in Hin. lia.
  - cbn in Hx. rewrite IH by lia. split.
    + intros [->|[Hin Hlt]]; [|tauto]. split; [left; reflexivity|].
      apply Hy, nth_In. lia.
    + intros [[->|Hin] Hlt]; [left; reflexivity|right; tauto].
Qed.

(** In the increasing list of the wires, a wire stands at its rank. *)
Lemma rank_sorted (W l : list nat) (x : nat) :
  StronglySorted lt l -> (forall b, In b l <-> In b W) -> (x < List.length l)%nat ->
  rank W (nth x l 0%nat) = x.
Proof.
  intros Hs Hin Hx. unfold rank.
  rewrite <- (firstn_length_le l (n := x)) at 2 by lia.
  apply Permutation_length, NoDup_Permutation.
  - apply NoDup_filter, seq_NoDup.
  - apply (NoDup_app_remove_r _ (skipn x l)). rewrite firstn_skipn.
    apply sorted_lt_NoDup_nat, Hs.
  - intros b. rewrite filter_In, in_seq, mem_In, sorted_lt_firstn, Hin by assumption.
    split; [intros [? ?]; split; [assumption|lia]|intros [? ?]; split; [lia|assumption]].
Qed.

(** [argsort(argsort(W))] gives each place in [W] the rank of its wire. *)
Lemma double_argsort_place (W : list nat) (i : nat) :
  NoDup W -> (i < List.length W)%nat ->
  nth i (argsort (argsort W)) 0%nat = rank W (nth i W 0%nat).
Proof.
  intros Hnd Hi.
  destruct (argsort_spec W) as [Hl1 Hin1].
  destruct (argsort_spec (argsort W)) as [Hl2 Hin2]. rewrite Hl1 in Hl2, Hin2.
  destruct (argsort_values W Hnd) as [Hs Hin].
  set (o := nth i (argsort (argsort W)) 0%nat).
  assert (Ho : (o < List.length W)%nat) by (apply Hin2, nth_In; lia).
  assert (Hinv : nth o (argsort W) 0%nat = i).
  { pose proof (f_equal (fun l => nth i l 0%nat) (argsort_argsort_inv W)) as E.
    cbn beta in E. rewrite (nth_map_default _ _ _ 0%nat), seq_nth in E by lia.
    exact E. }
  rewrite <- Hinv at 1.
  rewrite <- (nth_map_default (fun c => nth c W 0%nat) (argsort W) o 0%nat 0%nat) by lia.
  symmetry. apply rank_sorted; [exact Hs|exact Hin|].
  rewrite length_map. lia.
Qed.

Lemma forallb_ext_in {A : Type} (f g : A -> bool) (l : list A) :
  (forall x, In x l -> f x = g x) -> forallb f l = forallb g l.
Proof.
  intros Hfg. induction l as [|x l IH]; [reflexivity|].
  cbn [forallb]. rewrite (Hfg x) by (left; reflexivity).
  rewrite IH by (intros y Hy; apply Hfg; right; exact Hy). reflexivity.
Qed.

Section MarginalOrder.

Context {B : Type}.

(** The marginal in the order of the wires, where the double argsort is its
    own inverse. *)
Lemma marginal_prob_own_inverse (d : QubitDevice B) (p : list Q) (W : list nat) :
  List.length p = (2 ^ num_wires d)%nat ->
  W <> [] ->
  NoDup W ->
  Forall (fun w => (w < num_wires d)%nat) W ->
  (forall i, (i < List.length W)%nat ->
     nth (nth i (argsort (argsort W)) 0%nat) (argsort (argsort W)) 0%nat = i) ->
  exists v,
    marginal_prob d p (Some W) = Ok v
    /\ List.length v = (2 ^ List.length W)%nat
    /\ forall j, (j < 2 ^ List.length W)%nat ->
         (nth j v 0 == marginal_sum (num_wires d) p W j)%Q.
Proof.
  intros Hp HW Hnd Hlt Hinv.
  destruct (marginal_prob_reads d p W Hp HW Hnd Hlt) as (v & Hv & Hlen & Hent).
  exists v. split; [exact Hv|]. split; [exact Hlen|].
  intros j Hj. rewrite (Hent j Hj).
  change (marginal_sum (num_wires d) p W j)
    with (sum_where (num_wires d) p (consistent (num_wires d) W j)).
  rewrite (sum_where_ext _ p _ (consistent (num_wires d) W j)); [reflexivity|].
  intros s. unfold read_consistent, consistent. apply forallb_ext_in.
  intros i Hi. apply in_seq in Hi.
  rewrite <- double_argsort_place, Hinv by (assumption || lia). reflexivity.
Qed.

(** For distinct device wires [W] whose permutation [argsort(argsort(W))] is
    its own inverse (two wires, a swap of wires, wires in increasing order),
    the entry of [marginal_prob] at the index [j] is the sum of [p] over the
    basis states that have bit [i] of [j] on wire [W_i]: the marginal in the
    order of the wires given. *)
Theorem marginal_prob_in_wire_order (d : QubitDevice B) (p : list Q) (W : list nat) :
  List.length p = (2 ^ num_wires d)%nat ->
  W <> [] ->
  NoDup W ->
  Forall (fun w => (w < num_wires d)%nat) W ->
  (forall i, (i < List.length W)%nat ->
     nth (nth i (argsort (argsort W)) 0%nat) (argsort (argsort W)) 0%nat = i) ->
  exists v,
    marginal_prob d p (Some W) = Ok v
    /\ List.length v = (2 ^ List.length W)%nat
    /\ forall j, (j < 2 ^ List.length W)%nat ->
         (nth j v 0 == marginal_sum (num_wires d) p W j)%Q.
Proof. apply marginal_prob_own_inverse. Qed.

End MarginalOrder.

Lemma marginal_prob_in_wire_order_witness :
  let p := [1; 2; 3; 4; 5; 6; 7; 8]%Q in
  exists v,
    marginal_prob three_qubits p (Some [2; 0]%nat) = Ok v
    /\ List.length v = 4%nat
    /\ forall j, (j < 4)%nat -> (nth j v 0 == marginal_sum 3 p [2; 0]%nat j)%Q.
Proof.
  intros p.
  apply (marginal_prob_in_wire_order three_qubits p [2; 0]%nat).
  - reflexivity.
  - discriminate.
  - repeat constructor; cbn; intuition lia.
  - repeat constructor.
  - intros [|[|i]] Hi; [reflexivity|reflexivity|cbn in Hi; lia].
Defined.

Lemma marginal_prob_entries_witness :
  exists v,
    marginal_prob three_qubits state_001 (Some [2; 0; 1]%nat) = Ok v
    /\ List.length v = 8%nat
    /\ forall j, (j < 8)%nat ->
         (nth j v 0 == sum_where 3 state_001 (read_consistent 3 [2; 0; 1]%nat j))%Q.
Proof.
  apply (marginal_prob_entries three_qubits state_001 [2; 0; 1]%nat).
  - reflexivity.
  - discriminate.
  - repeat constructor; cbn; intuition lia.
  - repeat constructor.
Defined.

(** ** Marginals in the order of the wires *)

(** [np.argsort(np.argsort(wires))] for distinct wires: at each place the
    rank of the wire that stands there, that is the number of requested
    wires below it. *)
Theorem double_argsort_rank (W : list nat) (i : nat) :
  NoDup W -> (i < List.length W)%nat ->
  nth i (argsort (argsort W)) 0%nat = rank W (nth i W 0%nat).
Proof. apply double_argsort_place. Qed.

Lemma double_argsort_rank_witness :
  nth 0 (argsort (argsort [5; 1; 3]%nat)) 0%nat = rank [5; 1; 3]%nat 5.
Proof.
  apply (double_argsort_rank [5; 1; 3]%nat 0).
  - repeat constructor; cbn; intuition lia.
  - cbn. lia.
Defined.

Lemma double_argsort_increasing (W : list nat) (i : nat) :
  StronglySorted lt W -> (i < List.length W)%nat ->
  nth i (argsort (argsort W)) 0%nat = i.
Proof.
  intros Hs Hi. rewrite double_argsort_place by (try apply sorted_lt_NoDup_nat; assumption).
  apply rank_sorted; [exact Hs|tauto|exact Hi].
Qed.

Lemma double_argsort_pair (a b : nat) :
  a <> b ->
  argsort (argsort [a; b]) = [0; 1]%nat \/ argsort (argsort [a; b]) = [1; 0]%nat.
Proof.
  intros Hab.
  assert (E : argsort [a; b] = if Nat.leb a b then [0; 1]%nat else [1; 0]%nat)
    by reflexivity.
  rewrite E. destruct (Nat.leb a b); [left|right]; reflexivity.
Qed.

Lemma consistent_all_wires (n j s : nat) :
  (j < 2 ^ n)%nat -> (s < 2 ^ n)%nat ->
  consistent n (seq 0 n) j s = Nat.eqb s j.
Proof.
  intros Hj Hs. apply eq_true_iff_eq. unfold consistent.
  rewrite forallb_forall, Nat.eqb_eq, length_seq. split.
  - intros Hall. apply (bits_inj n); [exact Hs|exact Hj|].
    intros a Ha. specialize (Hall a). rewrite seq_nth in Hall by exact Ha.
    apply Nat.eqb_eq, Hall, in_seq. lia.
  - intros -> a Ha. apply in_seq in Ha. rewrite seq_nth by lia. apply Nat.eqb_refl.
Qed.

Section MarginalCases.

Context {B : Type}.

(** For wires in strictly increasing order, the entry [j] of [marginal_prob]
    is the sum of [p] over the basis states that have bit [i] of [j] on wire
    [W_i]: the marginal over [W], without any reordering. *)
Theorem marginal_prob_increasing (d : QubitDevice B) (p : list Q) (W : list nat) :
  List.length p = (2 ^ num_wires d)%nat ->
  W <> [] ->
  StronglySorted lt W ->
  Forall (fun w => (w < num_wires d)%nat) W ->
  exists v,
    marginal_prob d p (Some W) = Ok v
    /\ List.length v = (2 ^ List.length W)%nat
    /\ forall j, (j < 2 ^ List.length W)%nat ->
         (nth j v 0 == marginal_sum (num_wires d) p W j)%Q.
Proof.
  intros Hp HW Hs Hlt. apply marginal_prob_own_inverse; try assumption.
  - apply sorted_lt_NoDup_nat, Hs.
  - intros i Hi. rewrite !(double_argsort_increasing W i Hs Hi). reflexivity.
Qed.

(** For two distinct device wires in any order, the entry [j] of
    [marginal_prob] is the sum of [p] over the basis states that have the
    first bit of [j] on the first wire given and the second bit on the
    second. *)
Theorem marginal_prob_two_wires (d : QubitDevice B) (p : list Q) (a b : nat) :
  List.length p = (2 ^ num_wires d)%nat ->
  a <> b ->
  (a < num_wires d)%nat ->
  (b < num_wires d)%nat ->
  exists v,
    marginal_prob d p (Some [a; b]) = Ok v
    /\ List.length v = 4%nat
    /\ forall j, (j < 4)%nat ->
         (nth j v 0 == marginal_sum (num_wires d) p [a; b] j)%Q.
Proof.
  intros Hp Hab Ha Hb.
  apply (marginal_prob_own_inverse d p [a; b]); try assumption.
  - discriminate.
  - constructor; [cbn; intuition congruence|]. constructor; [cbn; tauto|constructor].
  - repeat constructor; assumption.
  - intros i Hi. destruct (double_argsort_pair a b Hab) as [-> | ->];
      destruct i as [|[|i]]; try reflexivity; cbn in Hi; lia.
Qed.

(** The marginal over all the wires of the device, in their order, is the
    distribution itself. *)
Theorem marginal_prob_all_wires (d : QubitDevice B) (p : list Q) :
  List.length p = (2 ^ num_wires d)%nat ->
  (0 < num_wires d)%nat ->
  exists v,
    marginal_prob d p (Some (seq 0 (num_wires d))) = Ok v
    /\ List.length v = List.length p
    /\ forall j, (j < List.length p)%nat -> (nth j v 0 == nth j p 0)%Q.
Proof.
  intros Hp Hn.
  destruct (marginal_prob_own_inverse d p (seq 0 (num_wires d))) as (v & Hv & Hlen & Hent).
  - exact Hp.
  - destruct (num_wires d); [lia|discriminate].
  - apply seq_NoDup.
  - apply Forall_forall. intros w Hw. apply in_seq in Hw. lia.
  - intros i Hi.
    rewrite !(double_argsort_increasing _ i (seq_sorted 0 (num_wires d)) Hi). reflexivity.
  - rewrite length_seq in Hlen, Hent.
    exists v. split; [exact Hv|]. split; [congruence|].
    intros j Hj. rewrite Hp in Hj. rewrite (Hent j Hj).
    unfold marginal_sum. fold (sum_where (num_wires d) p (consistent (num_wires d) (seq 0 (num_wires d)) j)).
    apply sum_where_single; [exact Hj|].
    intros s Hs. apply consistent_all_wires; assumption.
Qed.

End MarginalCases.

Lemma marginal_prob_increasing_witness :
  let p := [1; 2; 3; 4; 5; 6; 7; 8]%Q in
  exists v,
    marginal_prob three_qubits p (Some [0; 2]%nat) = Ok v
    /\ List.length v = 4%nat
    /\ forall j, (j < 4)%nat -> (nth j v 0 == marginal_sum 3 p [0; 2]%nat j)%Q.
Proof.
  intros p. apply (marginal_prob_increasing three_qubits p [0; 2]%nat).
  - reflexivity.
  - discriminate.
  - repeat constructor.
  - repeat constructor.
Defined.

Lemma marginal_prob_two_wires_witness :
  let p := [1; 2; 3; 4; 5; 6; 7; 8]%Q in
  exists v,
    marginal_prob three_qubits p (Some [2; 1]%nat) = Ok v
    /\ List.length v = 4%nat
    /\ forall j, (j < 4)%nat -> (nth j v 0 == marginal_sum 3 p [2; 1]%nat j)%Q.
Proof.
  intros p. apply (marginal_prob_two_wires three_qubits p 2 1).
  - reflexivity.
  - discriminate.
  - cbn. lia.
  - cbn. lia.
Defined.

Lemma marginal_prob_all_wires_witness :
  let p := [1; 2; 3; 4; 5; 6; 7; 8]%Q in
  exists v,
    marginal_prob three_qubits p (Some [0; 1; 2]%nat) = Ok v
    /\ List.length v = 8%nat
    /\ forall j, (j < 8)%nat -> (nth j v 0 == nth j p 0)%Q.
Proof.
  intros p. apply (marginal_prob_all_wires three_qubits p).
  - reflexivity.
  - cbn. lia.
Defined.

(** ** The total mass of a marginal *)










Section MarginalTotal.

Context {B : Type}.




(** Without wires to stack, or with a vector that does not hold one entry
    for each basis state of the device, [marginal_prob] raises
    [ValueError]. *)
Theorem marginal_prob_value_error (d : QubitDevice B) (p : list Q) (W : list nat) :
  W = [] \/ List.length p <> (2 ^ num_wires d)%nat ->
  marginal_prob d p (Some W) = Raise ValueError.
Proof.
  intros Hbad. unfold marginal_prob. destruct W as [|w W]; [reflexivity|].
  destruct Hbad as [Hbad|Hbad]; [discriminate|].
  cbn [hstack bind]. unfold reshape. rewrite size_of_repeat2.
  destruct (Nat.eqb_spec (List.length p) (2 ^ num_wires d)); [contradiction|reflexivity].
Qed.

End MarginalTotal.


Lemma marginal_prob_value_error_witness :
  marginal_prob three_qubits [1 # 2; 1 # 2]%Q (Some [0]%nat) = Raise ValueError.
Proof.
  apply (marginal_prob_value_error three_qubits [1 # 2; 1 # 2]%Q [0]%nat).
  right. discriminate.
Defined.


(** ** Binary rows of any sample *)

Lemma binary_rows_shape (samples : list Z) (num_wires : nat) :
  List.length (states_to_binary samples num_wires) = List.length samples
  /\ Forall (fun r => List.length r = num_wires /\ Forall (fun b => b = 0 \/ b = 1) r)
            (states_to_binary samples num_wires).
Proof.
  unfold states_to_binary. split; [apply length_map|].
  apply Forall_map, Forall_forall. intros s _. split; [apply binary_row_length|].
  unfold binary_row. apply Forall_rev, Forall_map, Forall_forall. intros pw _.
  destruct (Z.land s pw >? 0); [right|left]; reflexivity.
Qed.

(** [states_to_binary] returns one row per sample, each of [num_wires]
    entries that are [0] or [1], whatever the samples are. *)
Theorem states_to_binary_shape (samples : list Z) (num_wires : nat) :
  List.length (states_to_binary samples num_wires) = List.length samples
  /\ Forall (fun r => List.length r = num_wires /\ Forall (fun b => b = 0 \/ b = 1) r)
            (states_to_binary samples num_wires).
Proof. apply binary_rows_shape. Qed.

(** A sample that does not fit in [num_wires] bits loses its high bits: the
    rows of [states_to_binary], read back in base 2, are the samples modulo
    [2^num_wires]. *)
Theorem states_to_binary_low_bits (samples : list Z) (num_wires : nat) :
  Forall (fun s => 0 <= s <= INT64_MAX) samples ->
  mapM (fun row => ravel_multi_index row (repeat 2 num_wires))
       (states_to_binary samples num_wires)
  = Ok (map (fun s => s mod 2 ^ Z.of_nat num_wires) samples).
Proof.
  intros Hs. unfold states_to_binary.
  induction Hs as [|s samples Hs _ IH]; [reflexivity|].
  cbn [map mapM]. unfold ravel_multi_index at 1.
  rewrite ravel_binary_row by exact Hs. cbn [bind]. rewrite IH. reflexivity.
Qed.

Lemma states_to_binary_low_bits_witness :
  mapM (fun row => ravel_multi_index row (repeat 2 2)) (states_to_binary [6; 3; 9] 2)
  = Ok (map (fun s => s mod 2 ^ Z.of_nat 2) [6; 3; 9]).
Proof.
  apply (states_to_binary_low_bits [6; 3; 9] 2).
  repeat constructor; unfold INT64_MAX; lia.
Defined.

(** ** Estimated probabilities *)

Section EstimateEntries.

Context {B : Type}.

(** The entries of [estimate_probability], for samples whose requested
    columns hold bits. *)
Lemma estimate_probability_frequencies (d : QubitDevice B) (m : matrix) (W : list nat) :
  _samples d = Some m ->
  W <> [] ->
  Forall (fun w => (w < n_cols m)%nat) W ->
  Forall (fun r => Forall (fun b => b = 0 \/ b = 1) (map (fun w => nth w r 0) W)) (rows m) ->
  exists prob,
    estimate_probability d W = Ok prob
    /\ List.length prob = (2 ^ List.length W)%nat
    /\ (forall r, In r (rows m) -> 0 <= columns_index W r < Z.of_nat (2 ^ List.length W))
    /\ forall j, (j < 2 ^ List.length W)%nat ->
         nth j prob 0%Q
         = if Nat.eqb (count_rows m W (Z.of_nat j)) 0 then 0%Q
           else (inject_Z (Z.of_nat (count_rows m W (Z.of_nat j)))
                 / inject_Z (Z.pos (shots d)))%Q.
Proof.
  intros Hs HW Hwires Hbits. rewrite Forall_forall in Hbits.
  unfold estimate_probability.
  assert (Hh : hstack W = Ok W) by (destruct W; [congruence|reflexivity]).
  rewrite Hh, Hs. cbn [bind]. unfold take_columns.
  assert (Hall : forallb (fun w => Nat.ltb w (n_cols m)) W = true).
  { apply forallb_forall. intros w Hw. rewrite Forall_forall in Hwires.
    apply Nat.ltb_lt, Hwires, Hw. }
  rewrite Hall. cbn [bind]. unfold ravel_rows. cbn [rows].
  set (sel := fun r : list Z => map (fun w => nth w r 0) W).
  set (num := fun bits : list Z => fold_left (fun a b => 2 * a + b) bits 0).
  rewrite mapM_map_ok with (g := num).
  2:{ intros r' Hr'. apply in_map_iff in Hr'. destruct Hr' as (r & <- & Hr).
      unfold ravel_multi_index.
      replace (List.length W) with (List.length (map (fun w => nth w r 0) W))
        by apply length_map.
      apply ravel_from_bits, Hbits, Hr. }
  cbn [bind]. fold sel.
  assert (Hci : forall r, In r (rows m) ->
            0 <= columns_index W r < Z.of_nat (2 ^ List.length W)).
  { intros r Hr. rewrite columns_index_fold.
    pose proof (fold_bits_range (sel r) 0 (Hbits r Hr)) as Hrange.
    assert (Hl : List.length (sel r) = List.length W) by apply length_map.
    rewrite Hl in Hrange. rewrite pow2_nat_Z. fold (sel r). lia. }
  set (indices := map num (map sel (rows m))).
  assert (Hnum : indices = map (columns_index W) (rows m)).
  { unfold indices. rewrite map_map. apply map_ext. intros r.
    unfold num, sel. symmetry. apply columns_index_fold. }
  assert (Hocc : forall v, occurrences v indices = count_rows m W v).
  { intros v. rewrite Hnum. unfold count_rows. apply occurrences_map. }
  pose proof (unique_counts_spec indices) as Hu.
  destruct (unique_counts indices) as [values counts].
  destruct Hu as (Hnd & Hlen & Hin & Hcnt).
  set (f := fun c : nat => (inject_Z (Z.of_nat c) / inject_Z (Z.pos (shots d)))%Q).
  destruct (setitems_ok values (map f counts) (repeat 0%Q (2 ^ List.length W)) 0%Q)
    as (prob & Eprob & Hplen & Hset & Hkeep).
  { rewrite length_map. exact Hlen. }
  { apply Forall_forall. intros v Hv. rewrite repeat_length.
    apply Hin in Hv. rewrite Hnum in Hv. apply in_map_iff in Hv.
    destruct Hv as (r & <- & Hr). apply Hci, Hr. }
  { exact Hnd. }
  exists prob. split; [exact Eprob|]. split; [rewrite Hplen; apply repeat_length|].
  split; [exact Hci|].
  intros j Hj.
  destruct (in_dec Z.eq_dec (Z.of_nat j) values) as [Hjin|Hjout].
  - destruct (in_combine_exists values counts _ Hlen Hjin) as (c & Hc).
    pose proof (Hset _ _ (in_combine_map f _ _ _ _ Hc)) as Hnth.
    rewrite Nat2Z.id in Hnth.
    pose proof (Hcnt _ _ Hc) as Hcv. rewrite Hocc in Hcv.
    apply Hin, occurrences_pos in Hjin. rewrite Hocc in Hjin.
    destruct (Nat.eqb_spec (count_rows m W (Z.of_nat j)) 0); [lia|].
    rewrite Hnth, Hcv. reflexivity.
  - rewrite Hkeep by exact Hjout.
    rewrite <- Hocc, occurrences_zero by (rewrite <- Hin; exact Hjout).
    apply nth_repeat.
Qed.

End EstimateEntries.






Section EstimateTotal.

Context {B : Type}.


(** A requested wire that the stored samples have no column for makes
    [estimate_probability] raise [IndexError]. *)
Theorem estimate_probability_missing_column (d : QubitDevice B) (m : matrix)
    (W : list nat) (w : nat) :
  _samples d = Some m ->
  In w W ->
  (n_cols m <= w)%nat ->
  estimate_probability d W = Raise IndexError.
Proof.
  intros Hs Hin Hw. unfold estimate_probability.
  assert (Hh : hstack W = Ok W) by (destruct W; [destruct Hin|reflexivity]).
  rewrite Hh, Hs. cbn [bind]. unfold take_columns.
  assert (Hall : forallb (fun w => Nat.ltb w (n_cols m)) W = false).
  { apply not_true_is_false. intros Hall. rewrite forallb_forall in Hall.
    specialize (Hall w Hin). apply Nat.ltb_lt in Hall. lia. }
  rewrite Hall. reflexivity.
Qed.

End EstimateTotal.


Lemma estimate_probability_missing_column_witness :
  estimate_probability
    (mkDevice 2 4 false (Some (mkMatrix 2 [[0; 1]; [1; 1]])) None (@nil Q)) [0; 2]%nat
  = Raise IndexError.
Proof.
  apply (estimate_probability_missing_column _ (mkMatrix 2 [[0; 1]; [1; 1]]) _ 2%nat).
  - reflexivity.
  - right. left. reflexivity.
  - cbn. lia.
Defined.

(** ** Samples of observables *)

Lemma mapM_map_image {X Y Z' : Type} (f : Y -> result Z') (h : X -> Y) (g : X -> Z')
    (l : list X) :
  (forall x, In x l -> f (h x) = Ok (g x)) -> mapM f (map h l) = Ok (map g l).
Proof.
  intros Hf. induction l as [|x l IH]; [reflexivity|].
  cbn [map mapM]. rewrite (Hf x) by (left; reflexivity). cbn [bind].
  rewrite IH by (intros y Hy; apply Hf; right; exact Hy). reflexivity.
Qed.

Section SampleProperties.

Context {B T : Type} `{Collaborators B T}.

(** For an observable named [PauliX], [PauliY], [PauliZ] or [Hadamard],
    [sample] reads the column of the first translated wire only and maps the
    bit [b] of each shot to [1 - 2 b]: one value per shot, each [1] or [-1]. *)
Theorem sample_pauli (d : QubitDevice B) (obs : Observable) (m : matrix)
    (w0 : nat) (rest : list nat) :
  is_pauli_name (name obs) = true ->
  translate d (wires obs) = w0 :: rest ->
  _samples d = Some m ->
  (w0 < n_cols m)%nat ->
  Forall (fun r => nth w0 r 0 = 0 \/ nth w0 r 0 = 1) (rows m) ->
  exists v,
    sample d obs = Ok v
    /\ v = map (fun r => of_Z (1 - 2 * nth w0 r 0)) (rows m)
    /\ Forall (fun x => x = of_Z 1 \/ x = of_Z (-1)) v.
Proof.
  intros Hname Hw Hs Hw0 Hbits. unfold sample. rewrite Hname, Hw, Hs.
  unfold take_column. rewrite (proj2 (Nat.ltb_lt _ _) Hw0). cbn [bind].
  eexists. split; [reflexivity|]. rewrite map_map. split; [reflexivity|].
  apply Forall_map. eapply Forall_impl; [|exact Hbits].
  cbn beta. intros r [-> | ->]; [left|right]; reflexivity.
Qed.

(** For any other observable, [sample] reads the columns of all translated
    wires and returns, for each shot, the eigenvalue at the index that the
    bits of the shot spell in base 2, first wire first. *)
Theorem sample_eigenvalues (d : QubitDevice B) (obs : Observable) (m : matrix)
    (W : list nat) :
  is_pauli_name (name obs) = false ->
  translate d (wires obs) = W ->
  W <> [] ->
  _samples d = Some m ->
  Forall (fun w => (w < n_cols m)%nat) W ->
  Forall (fun r => Forall (fun b => b = 0 \/ b = 1) (map (fun w => nth w r 0) W)) (rows m) ->
  (2 ^ List.length W <= List.length (eigvals obs))%nat ->
  sample d obs
  = Ok (map (fun r => nth (Z.to_nat (columns_index W r)) (eigvals obs) (of_Q 0)) (rows m)).
Proof.
  intros Hname Hw HW Hs Hwires Hbits Hlen. rewrite Forall_forall in Hbits.
  unfold sample. rewrite Hname, Hw.
  assert (Hh : hstack W = Ok W) by (destruct W; [congruence|reflexivity]).
  rewrite Hh, Hs. cbn [bind]. unfold take_columns.
  assert (Hall : forallb (fun w => Nat.ltb w (n_cols m)) W = true).
  { apply forallb_forall. intros w Hin. rewrite Forall_forall in Hwires.
    apply Nat.ltb_lt, Hwires, Hin. }
  rewrite Hall. cbn [bind]. unfold ravel_rows. cbn [rows].
  rewrite mapM_map_ok with (g := fun bits => fold_left (fun a b => 2 * a + b) bits 0).
  2:{ intros r' Hr'. apply in_map_iff in Hr'. destruct Hr' as (r & <- & Hr).
      unfold ravel_multi_index.
      replace (List.length W) with (List.length (map (fun w => nth w r 0) W))
        by apply length_map.
      apply ravel_from_bits, Hbits, Hr. }
  cbn [bind]. unfold getitems. rewrite !map_map.
  apply mapM_map_image. intros r Hr. rewrite <- columns_index_fold.
  pose proof (fold_bits_range _ 0 (Hbits r Hr)) as Hrange.
  rewrite <- columns_index_fold, length_map, <- pow2_nat_Z in Hrange.
  rewrite (nth_error_nth' _ (of_Q 0)) by lia. reflexivity.
Qed.

End SampleProperties.

Lemma sample_pauli_witness :
  let d := set_samples one_qubit (Some (mkMatrix 1 [[0]; [1]])) in
  exists v,
    sample (H := simulator []) d (pauli_z Sample) = Ok v
    /\ v = map (fun r => of_Z (1 - 2 * nth 0 r 0)) [[0]; [1]]
    /\ Forall (fun x => x = of_Z 1 \/ x = of_Z (-1)) v.
Proof.
  intros d.
  apply (sample_pauli (H := simulator []) d (pauli_z Sample) (mkMatrix 1 [[0]; [1]]) 0 []).
  - reflexivity.
  - reflexivity.
  - reflexivity.
  - cbn. lia.
  - repeat first [ apply Forall_nil | apply Forall_cons | left; reflexivity | right; reflexivity ].
Defined.

Lemma sample_eigenvalues_witness :
  let d := set_samples two_qubits (Some (mkMatrix 2 [[0; 1]; [1; 1]])) in
  let obs := mkObservable (Name "Hermitian") [1; 0]%nat Sample
                          [of_Z 3; of_Z 5; of_Z 7; of_Z 9] in
  sample (H := simulator []) d obs
  = Ok (map (fun r => nth (Z.to_nat (columns_index [1; 0]%nat r)) (eigvals obs) (of_Q 0))
            [[0; 1]; [1; 1]]).
Proof.
  intros d obs.
  apply (sample_eigenvalues (H := simulator []) d obs (mkMatrix 2 [[0; 1]; [1; 1]]) [1; 0]%nat).
  - reflexivity.
  - reflexivity.
  - discriminate.
  - reflexivity.
  - repeat first [ apply Forall_nil | apply Forall_cons | cbn; lia ].
  - repeat first [ apply Forall_nil | apply Forall_cons | left; reflexivity | right; reflexivity ].
  - cbn. lia.
Defined.

(** ** From generated samples to estimated probabilities *)

Lemma columns_index_binary_row (n : nat) (s : Z) :
  0 <= s < 2 ^ Z.of_nat n -> s <= INT64_MAX ->
  columns_index (seq 0 n) (binary_row n s) = s.
Proof.
  intros Hs Hmax. rewrite columns_index_fold.
  assert (Hsel : map (fun w => nth w (binary_row n s) 0) (seq 0 n) = binary_row n s).
  { rewrite <- (binary_row_length n s) at 1. apply map_nth_seq. }
  rewrite Hsel.
  assert (Hbits : Forall (fun b => b = 0 \/ b = 1) (binary_row n s)).
  { pose proof (binary_rows_shape [s] n) as [_ Hrow].
    apply Forall_inv in Hrow. apply Hrow. }
  pose proof (ravel_from_bits _ 0 Hbits) as E1. rewrite binary_row_length in E1.
  pose proof (ravel_binary_row n s 0) as E2. rewrite E2 in E1 by lia.
  assert (E : fold_left (fun a b => 2 * a + b) (binary_row n s) 0
              = 0 * 2 ^ Z.of_nat n + s mod 2 ^ Z.of_nat n) by congruence.
  rewrite E, Z.mod_small by lia. lia.
Qed.

Lemma count_generated_rows (n : nat) (draws : list Z) (j : Z) :
  Forall (fun s => In s (arange (2 ^ n)) /\ s <= INT64_MAX) draws ->
  count_rows (mkMatrix n (states_to_binary draws n)) (seq 0 n) j = occurrences j draws.
Proof.
  intros Hdraws. unfold count_rows, occurrences, states_to_binary. cbn [rows].
  induction Hdraws as [|s draws [Hin Hmax] _ IH]; [reflexivity|].
  cbn [map filter]. apply in_arange in Hin. rewrite pow2_nat_Z in Hin.
  rewrite columns_index_binary_row by assumption.
  destruct (j =? s); cbn [List.length]; rewrite IH; reflexivity.
Qed.

Section GenerateThenEstimate.

Context {B T : Type} `{Collaborators B T}.

(** The samples that [generate_samples] returns, once stored, make
    [estimate_probability] over all the wires return the relative frequencies
    of the drawn basis states: entry [j] is the number of draws equal to [j]
    divided by the shot count. *)
Theorem estimate_generated_samples (d : QubitDevice B) (p : list Q) (draws : list Z) :
  (0 < num_wires d)%nat ->
  analytic_probability d None = Ok p ->
  np_random_choice (arange (2 ^ num_wires d)) (shots d) p = Ok draws ->
  Forall (fun s => In s (arange (2 ^ num_wires d)) /\ s <= INT64_MAX) draws ->
  exists m prob,
    generate_samples d = Ok m
    /\ estimate_probability (set_samples d (Some m)) (seq 0 (num_wires d)) = Ok prob
    /\ List.length prob = (2 ^ num_wires d)%nat
    /\ forall j, (j < 2 ^ num_wires d)%nat ->
         (nth j prob 0
          == inject_Z (Z.of_nat (occurrences (Z.of_nat j) draws))
             / inject_Z (Z.pos (shots d)))%Q.
Proof.
  intros Hn Hp Hc Hdraws. set (n := num_wires d) in *.
  set (m := mkMatrix n (states_to_binary draws n)).
  assert (Hgen : generate_samples d = Ok m).
  { unfold generate_samples, sample_basis_states. fold n. rewrite Hp. cbn [bind].
    rewrite Hc. reflexivity. }
  destruct (binary_rows_shape draws n) as [_ Hshape].
  destruct (estimate_probability_frequencies (set_samples d (Some m)) m (seq 0 n))
    as (prob & Hprob & Hlen & _ & Hent).
  - reflexivity.
  - destruct n; [lia|discriminate].
  - apply Forall_forall. intros w Hw. apply in_seq in Hw. cbn. lia.
  - cbn [rows m]. eapply Forall_impl; [|exact Hshape].
    cbn beta. intros r [Hl Hb]. rewrite <- Hl, map_nth_seq. exact Hb.
  - rewrite length_seq in Hlen, Hent.
    exists m, prob. split; [exact Hgen|]. split; [exact Hprob|]. split; [exact Hlen|].
    intros j Hj. cbn [shots set_samples] in Hent. rewrite (Hent j Hj).
    unfold m. rewrite (count_generated_rows n draws (Z.of_nat j) Hdraws).
    destruct (Nat.eqb_spec (occurrences (Z.of_nat j) draws) 0) as [E|_]; [|reflexivity].
    rewrite E. unfold Qdiv. cbn [Z.of_nat]. ring.
Qed.

End GenerateThenEstimate.

Lemma estimate_generated_samples_witness :
  let sim := simulator [2; 0; 2] in
  let d := simulator_device 2 3 [1 # 4; 1 # 4; 1 # 4; 1 # 4]%Q in
  exists m prob,
    generate_samples (H := sim) d = Ok m
    /\ estimate_probability (set_samples d (Some m)) [0; 1]%nat = Ok prob
    /\ List.length prob = 4%nat
    /\ forall j, (j < 4)%nat ->
         (nth j prob 0
          == inject_Z (Z.of_nat (occurrences (Z.of_nat j) [2; 0; 2]%Z)) / inject_Z 3)%Q.
Proof.
  intros sim d.
  apply (estimate_generated_samples (H := sim) d [1 # 4; 1 # 4; 1 # 4; 1 # 4]%Q [2; 0; 2]).
  - cbn. lia.
  - reflexivity.
  - reflexivity.
  - repeat constructor; cbn; try lia; unfold INT64_MAX; lia.
Defined.

(** ** The results of the dispatcher and the state after an execution *)

Section DispatchProperties.

Context {B T : Type} `{Collaborators B T}.

Lemma statistics_loop_kinds (d : QubitDevice B) (l : list Observable)
    (acc res : list value) :
  statistics_loop d l acc = Ok res ->
  exists r, res = acc ++ r /\ Forall2 statistic_kind (filter has_return_type l) r.
Proof.
  revert acc. induction l as [|o l IH]; intros acc; cbn [statistics_loop].
  - intros [= <-]. exists []. rewrite app_nil_r. split; [reflexivity|constructor].
  - cbn [filter]. unfold has_return_type at 1. unfold statistic_kind.
    destruct (return_type o) eqn:Et; cbn [is_tag negb].
    + destruct (expval d o); cbn [bind]; [|discriminate].
      intros E. destruct (IH _ E) as (r & -> & Hr). rewrite <- app_assoc.
      eexists. split; [reflexivity|]. constructor; [|exact Hr].
      unfold statistic_kind. rewrite Et. exact I.
    + destruct (var d o); cbn [bind]; [|discriminate].
      intros E. destruct (IH _ E) as (r & -> & Hr). rewrite <- app_assoc.
      eexists. split; [reflexivity|]. constructor; [|exact Hr].
      unfold statistic_kind. rewrite Et. exact I.
    + destruct (sample d o); cbn [bind]; [|discriminate].
      intros E. destruct (IH _ E) as (r & -> & Hr). rewrite <- app_assoc.
      eexists. split; [reflexivity|]. constructor; [|exact Hr].
      unfold statistic_kind. rewrite Et. exact I.
    + destruct (probability d (Some (translate d (wires o)))); cbn [bind]; [|discriminate].
      intros E. destruct (IH _ E) as (r & -> & Hr). rewrite <- app_assoc.
      eexists. split; [reflexivity|]. constructor; [|exact Hr].
      unfold statistic_kind. rewrite Et. exact I.
    + apply IH.
    + discriminate.
Qed.

(** When [statistics] returns, it returns one statistic for each observable
    whose return type is not [None], in the order of the observables: a
    number for [Expectation] and [Variance], an array for [Sample] and
    [Probability]. *)
Theorem statistics_results (d : QubitDevice B) (l : list Observable) (res : list value) :
  statistics d l = Ok res ->
  Forall2 statistic_kind (filter has_return_type l) res.
Proof.
  intros E. apply statistics_loop_kinds in E. destruct E as (r & -> & Hr). exact Hr.
Qed.

(** A successful [execute] leaves the device as [apply] left it, given the
    hash of the circuit beforehand, with the samples replaced by newly
    generated ones exactly when the device is not analytic or the circuit
    is sampled. *)
Theorem execute_device (d d' : QubitDevice B) (c : CircuitGraph)
    (kwargs : list (string * Z)) (r : T) :
  execute d c kwargs = (Ok r, d') ->
  exists d1 u,
    apply (operations c) (diagonalizing_gates c) kwargs
          (set_circuit_hash d (Some (hash c))) = (Ok u, d1)
    /\ if (negb (analytic d1) || is_sampled c)%bool
       then exists m, generate_samples d1 = Ok m /\ d' = set_samples d1 (Some m)
       else d' = d1.
Proof.
  unfold execute.
  destruct (check_validity d (operations c) (observables c)); [|discriminate].
  destruct (apply _ _ _ _) as [[u|?] d1]; [|discriminate].
  exists d1, u. split; [reflexivity|].
  destruct (negb (analytic d1) || is_sampled c)%bool.
  - destruct (generate_samples d1) as [m|]; cbn [bind] in *; [|discriminate].
    destruct (statistics _ _); [|discriminate].
    exists m. split; [reflexivity|].
    destruct (is_sampled c && _)%bool; congruence.
  - destruct (statistics _ _); [|discriminate].
    destruct (is_sampled c && _)%bool; congruence.
Qed.

Lemma matmul_mismatch (e : list complex) (p : list Q) :
  List.length e <> List.length p -> matmul e p = Raise ValueError.
Proof.
  revert p. induction e as [|x e IH]; intros [|y p] Hlen; try reflexivity.
  - cbn in Hlen. congruence.
  - cbn [matmul]. rewrite IH by (cbn in Hlen; congruence). reflexivity.
Qed.

(** In analytic mode, an eigenvalue vector and a probability vector of
    different lengths make [expval] and [var] raise [ValueError]. *)
Theorem analytic_length_mismatch (d : QubitDevice B) (obs : Observable) (p : list Q) :
  analytic d = true ->
  probability d (Some (translate d (wires obs))) = Ok p ->
  List.length (eigvals obs) <> List.length p ->
  expval d obs = Raise ValueError /\ var d obs = Raise ValueError.
Proof.
  intros Ha Hp Hlen. unfold expval, var. rewrite Ha, Hp. cbn [bind].
  rewrite !matmul_mismatch by (rewrite ?length_map; exact Hlen).
  split; reflexivity.
Qed.

(** A device that has to sample and whose [analytic_probability] raises, as
    the one of the base class does, fails in [execute] with that exception
    once the circuit is applied: no samples are stored and no statistic is
    computed. *)
Theorem execute_without_probability (d d1 : QubitDevice B) (c : CircuitGraph)
    (kwargs : list (string * Z)) (u u' : unit) (e : exn) :
  check_validity d (operations c) (observables c) = Ok u ->
  apply (operations c) (diagonalizing_gates c) kwargs
        (set_circuit_hash d (Some (hash c))) = (Ok u', d1) ->
  (negb (analytic d1) || is_sampled c)%bool = true ->
  analytic_probability d1 None = Raise e ->
  execute d c kwargs = (Raise e, d1).
Proof.
  intros Hc Ha Hs Hp. unfold execute. rewrite Hc, Ha, Hs.
  unfold generate_samples. rewrite Hp. reflexivity.
Qed.

End DispatchProperties.

Lemma statistics_results_witness :
  Forall2 statistic_kind
    (filter has_return_type
       [pauli_z Expectation; pauli_z NoReturnType; pauli_z Probability])
    [Scalar (real (inner_product (eigvals (pauli_z Expectation)) [1 # 2; 1 # 2]%Q));
     Vector (map of_Q [1 # 2; 1 # 2]%Q)].
Proof.
  apply (statistics_results (H := simulator []) one_qubit).
  reflexivity.
Defined.

Lemma execute_device_witness :
  let sim := simulator [0; 1] in
  let c := circuit_of [pauli_z Sample; pauli_z Expectation] true in
  let d1 := set_circuit_hash one_qubit (Some 7) in
  let d' := set_samples d1 (Some (mkMatrix 1 [[0]; [1]])) in
  exists d2 u,
    apply (Collaborators := sim) (operations c) (diagonalizing_gates c) []
          (set_circuit_hash one_qubit (Some (hash c))) = (Ok u, d2)
    /\ if (negb (analytic d2) || is_sampled c)%bool
       then exists m, generate_samples (H := sim) d2 = Ok m /\ d' = set_samples d2 (Some m)
       else d' = d2.
Proof.
  intros sim c d1 d'.
  apply (execute_device (H := sim) one_qubit d' c []
           ([Vector [of_Z 1; of_Z (-1)]; Scalar (mkC (0 # 4) 0)], Some Object)).
  reflexivity.
Defined.

Lemma analytic_length_mismatch_witness :
  let obs := mkObservable (Name "Hermitian") [0%nat] Expectation [of_Z 1] in
  expval (H := simulator []) one_qubit obs = Raise ValueError
  /\ var (H := simulator []) one_qubit obs = Raise ValueError.
Proof.
  intros obs.
  apply (analytic_length_mismatch (H := simulator []) one_qubit obs [1 # 2; 1 # 2]%Q).
  - reflexivity.
  - reflexivity.
  - discriminate.
Defined.

(** ** The sign of the analytic variance *)




Section Variance.

Context {B T : Type} `{Collaborators B T}.


End Variance.


(** ** Capabilities, active wires and the state of a fresh device *)

Lemma dict_get_set_same (k : string) (v : cap_value) (d : dict) :
  dict_get k (dict_set k v d) = Some v.
Proof.
  induction d as [|[k' v'] d IH]; cbn [dict_set dict_get].
  - rewrite String.eqb_refl. reflexivity.
  - destruct (String.eqb k k') eqn:E; cbn [dict_get].
    + rewrite String.eqb_refl. reflexivity.
    + rewrite E. exact IH.
Qed.

Lemma dict_get_set_other (k k' : string) (v : cap_value) (d : dict) :
  k <> k' -> dict_get k' (dict_set k v d) = dict_get k' d.
Proof.
  intros Hk. induction d as [|[k0 v0] d IH]; cbn [dict_set dict_get].
  - destruct (String.eqb_spec k' k); [congruence|reflexivity].
  - destruct (String.eqb_spec k k0) as [->|Hne]; cbn [dict_get].
    + destruct (String.eqb_spec k' k0); [congruence|reflexivity].
    + destruct (String.eqb k' k0); [reflexivity|exact IH].
Qed.

Lemma dict_set_present (k : string) (v : cap_value) (d : dict) :
  dict_get k d = Some v -> dict_set k v d = d.
Proof.
  induction d as [|[k' v'] d IH]; cbn [dict_set dict_get]; [discriminate|].
  destruct (String.eqb_spec k k') as [->|Hne].
  - intros [= ->]. reflexivity.
  - intros E. rewrite IH by exact E. reflexivity.
Qed.

(** [capabilities] returns the dictionary of the class itself, with
    ["model"] set to ["qubit"] and ["tensor_observables"] to [True] whatever
    they were, and every other entry as it was; a second call changes
    nothing. *)
Theorem capabilities_entries (c : dict) :
  fst (capabilities c) = snd (capabilities c)
  /\ dict_get "model" (fst (capabilities c)) = Some (CapStr "qubit")
  /\ dict_get "tensor_observables" (fst (capabilities c)) = Some (CapBool true)
  /\ (forall k, k <> "model"%string -> k <> "tensor_observables"%string ->
        dict_get k (fst (capabilities c)) = dict_get k c)
  /\ capabilities (snd (capabilities c)) = capabilities c.
Proof.
  unfold capabilities. cbn [fst snd].
  assert (Hm : dict_get "model"
                 (dict_set "tensor_observables" (CapBool true)
                    (dict_set "model" (CapStr "qubit") c)) = Some (CapStr "qubit")).
  { rewrite dict_get_set_other by discriminate. apply dict_get_set_same. }
  repeat split.
  - exact Hm.
  - apply dict_get_set_same.
  - intros k Hk1 Hk2. rewrite !dict_get_set_other by congruence. reflexivity.
  - rewrite (dict_set_present "model" _ _ Hm).
    rewrite (dict_set_present "tensor_observables" (CapBool true))
      by apply dict_get_set_same.
    reflexivity.
Qed.

Lemma capabilities_entries_witness :
  let c := [("model", CapStr "cv"); ("inverse_operations", CapBool true)]%string in
  fst (capabilities c) = snd (capabilities c)
  /\ dict_get "model" (fst (capabilities c)) = Some (CapStr "qubit")
  /\ dict_get "tensor_observables" (fst (capabilities c)) = Some (CapBool true)
  /\ (forall k, k <> "model"%string -> k <> "tensor_observables"%string ->
        dict_get k (fst (capabilities c)) = dict_get k c)
  /\ capabilities (snd (capabilities c)) = capabilities c.
Proof. intros c. apply (capabilities_entries c). Defined.

(** [active_wires] holds each wire once, and exactly the wires that some
    operator of the list acts on. *)
Theorem active_wires_spec (operators : list Operation) :
  NoDup (active_wires operators)
  /\ forall w, In w (active_wires operators)
               <-> exists op, In op operators /\ In w (op_wires op).
Proof.
  unfold active_wires. split; [apply NoDup_nodup|].
  intros w. rewrite nodup_In, in_flat_map. reflexivity.
Qed.

Section FreshDevice.

Context {B T : Type} `{Collaborators B T}.

(** After [reset], a device that is not analytic and has at least one wire
    has no samples to estimate from: [probability] raises [TypeError],
    whatever wires are asked for, until samples are generated. *)
Theorem probability_after_reset (d : QubitDevice B) (wires : option (list nat)) :
  analytic d = false ->
  (0 < num_wires d)%nat ->
  probability (reset d) wires = Raise TypeError.
Proof.
  intros Ha Hn. unfold probability. cbn [reset analytic]. rewrite Ha.
  unfold estimate_probability.
  assert (Hw : exists w ws, wires_or_range (reset d) wires = w :: ws).
  { unfold wires_or_range. cbn [reset num_wires].
    destruct wires as [[|w ws]|]; try (exists w, ws; reflexivity);
      destruct (num_wires d); try lia; eexists; eexists; reflexivity. }
  destruct Hw as (w & ws & ->). reflexivity.
Qed.

End FreshDevice.

Lemma probability_after_reset_witness :
  probability (H := simulator []) (reset (mkDevice 2 4 false None (Some 7) (@nil Q))) (Some [1]%nat)
  = Raise TypeError.
Proof.
  apply (probability_after_reset (H := simulator [])
           (mkDevice 2 4 false None (Some 7) (@nil Q)) (Some [1]%nat)).
  - reflexivity.
  - cbn. lia.
Defined.

Lemma execute_without_probability_witness :
  let d := mkDevice 1 10 false None None tt in
  execute (H := bare_device) d (circuit_of [pauli_z Expectation] false) []
  = (Raise NotImplementedError, set_circuit_hash d (Some 7)).
Proof.
  intros d.
  apply (execute_without_probability (H := bare_device) d (set_circuit_hash d (Some 7))
           (circuit_of [pauli_z Expectation] false) [] tt tt NotImplementedError);
    reflexivity.
Defined.

Lemma active_wires_spec_witness :
  let ops := [mkOperation "CNOT" [0; 1]%nat [] false;
              mkOperation "RX" [1%nat] [1 # 2]%Q false] in
  NoDup (active_wires ops)
  /\ forall w, In w (active_wires ops) <-> exists op, In op ops /\ In w (op_wires op).
Proof. intros ops. apply (active_wires_spec ops). Defined.
